(** * sqlite-pool: the pooled connection layer of [src/index.ts]

    A shallow embedding of the transaction / pool-connection lifecycle of
    [createConnectionPool]: the one-shot [query], the two streaming
    generators, [tx] with its race against the abort signal, and the
    [onReleaseTimeout] hook registered with the pool.

    The pool ([@databases/connection-pool]) and the synchronous driver
    ([@databases/sqlite-sync]) are external collaborators: they appear as
    the oracles of [Env], functions of the history of effects so far, and
    every theorem holds for all of them.  Effects are recorded in a trace;
    the mutable objects of the layer (abort controllers, the [controller]
    field of a raw connection, transaction objects, generator objects)
    live in a store. *)

From stdpp Require Import base option list gmap strings.

Set Default Proof Using "Type".
Open Scope string_scope.
Open Scope list_scope.

(** ** Data model *)

(** A row object: column name to value, in column order. *)
Definition Row : Type := list (string * Z).

(** [SQLQuery]: the opaque, immutable statement object of the [sql] tag:
    its text with placeholders and its values. *)
Record SQLQuery : Type := sql { text : string; values : list Z }.

Definition BEGIN : SQLQuery := sql "BEGIN" [].
Definition COMMIT : SQLQuery := sql "COMMIT" [].
Definition ROLLBACK : SQLQuery := sql "ROLLBACK" [].

(** [onQueryParamters] (index.ts:89-92): what the observer receives. *)
Record onQueryParamters : Type :=
  { fmt_text : string; fmt_values : list Z }.

(** [query.format({escapeIdentifier, formatValue})] (index.ts:112-115):
    every value becomes the placeholder [?]; the query object already
    carries its text in that form. *)
Definition format (q : SQLQuery) : onQueryParamters :=
  {| fmt_text := text q; fmt_values := values q |}.

Definition ConnId : Type := nat.

(** [PoolConnection]: one lease of a raw connection; [release] is the
    lease's own callback, so a lease carries its identity. *)
Record PoolConnection : Type :=
  { pool_conn : ConnId; lease : nat }.

(** The three places that build [new Error("Transaction aborted")]. *)
Inductive AbortSite : Type :=
| InQueryGuard   (* index.ts:56 *)
| InStreamGuard  (* index.ts:38 *)
| InRace.        (* index.ts:165 *)

Inductive Origin : Type :=
  ByDriver | ByPool | ByUser | ByRuntime | ByObserver.

(** Error objects.  Two errors built at different places are different
    objects even when their messages agree. *)
Inductive Error : Type :=
| TransactionAborted (site : AbortSite)
| Thrown (by_ : Origin) (msg : string).

Definition message (e : Error) : string :=
  match e with
  | TransactionAborted _ => "Transaction aborted"
  | Thrown _ m => m
  end.

Definition is_transaction_aborted (e : Error) : bool :=
  match e with TransactionAborted _ => true | Thrown _ _ => false end.

(** How a synchronous piece of code completes. *)
Inductive Completion (A : Type) : Type :=
| Normal (a : A)
| Throw (e : Error).
Arguments Normal {A} a.
Arguments Throw {A} e.

(** The state of a promise at the end of what has been observed. *)
Inductive Settlement (A : Type) : Type :=
| Fulfilled (a : A)
| Rejected (e : Error)
| Unsettled.
Arguments Fulfilled {A} a.
Arguments Rejected {A} e.
Arguments Unsettled {A}.

Definition settle {A} (c : Completion A) : Settlement A :=
  match c with Normal a => Fulfilled a | Throw e => Rejected e end.

(** Observable effects, oldest first in a trace. *)
Inductive Event : Type :=
| EvAcquire (pc : PoolConnection)          (* getConnection() granted *)
| EvRelease (pc : PoolConnection)          (* poolConnection.release() *)
| EvAudit (a : onQueryParamters)           (* #onQuery(query) ran *)
| EvQuery (c : ConnId) (q : SQLQuery)      (* connection.query(q) *)
| EvQueryStream (c : ConnId) (q : SQLQuery)(* connection.queryStream(q) iterated *)
| EvAbort (ctrl : nat)                     (* controller.abort() *)
| EvDispose (c : ConnId)                   (* connection.dispose() *)
| EvUnhandledRejection (e : Error).        (* a rejection nobody awaits *)

(** What the lazy row sequence of the driver will produce from here on:
    its remaining rows, then the end or a failure. *)
Record Cursor : Type :=
  { rows : list Row; failure : option string }.

Inductive Acquired : Type :=
| Granted (pc : PoolConnection)
| Refused (msg : string)
| Waiting.

(** The external collaborators, as functions of the history:
    [pool_getConnection] is what the pool does with a request at once
    ([Waiting]: it queues it, and settles it later); [audit_throws] is
    what [query.format] or the observer of [poolOptions] throws, if one of
    them throws. *)
Record Env : Type :=
  { pool_getConnection : list Event -> Acquired;
    driver_query : list Event -> ConnId -> SQLQuery -> string + list Row;
    driver_queryStream : list Event -> ConnId -> SQLQuery -> Cursor;
    audit_throws : list Event -> SQLQuery -> option string }.

(** [TransactionImplementation] (index.ts:44-52). *)
Record TransactionImplementation : Type :=
  { connection : ConnId; aborted : bool }.

(** The async generator object of [transactionalQueryStream]. *)
Inductive TxStream : Type :=
| TxSuspendedStart (tx : nat) (q : SQLQuery)
| TxSuspendedYield (tx : nat) (cur : Cursor)
| TxCompleted.

(** What a call of [next], [return] or [throw] on a generator settles to. *)
Inductive IterResult : Type :=
| Yielded (r : Row)
| Finished
| Raised (e : Error)
| Stuck.   (* the promise has not settled *)

Record World : Type := mkWorld
  { trace : list Event;
    controllers : list bool;            (* AbortController: signal.aborted *)
    controller_of : gmap ConnId nat;    (* connection.controller *)
    transactions : list TransactionImplementation;
    streams : list TxStream }.

Definition initial_world : World := mkWorld [] [] ∅ [] [].

Definition emit (ev : Event) (w : World) : World :=
  mkWorld (trace w ++ [ev]) (controllers w) (controller_of w)
          (transactions w) (streams w).

Definition with_controllers (cs : list bool) (w : World) : World :=
  mkWorld (trace w) cs (controller_of w) (transactions w) (streams w).

Definition with_controller_of (m : gmap ConnId nat) (w : World) : World :=
  mkWorld (trace w) (controllers w) m (transactions w) (streams w).

Definition with_transactions (ts : list TransactionImplementation)
           (w : World) : World :=
  mkWorld (trace w) (controllers w) (controller_of w) ts (streams w).

Definition with_streams (ss : list TxStream) (w : World) : World :=
  mkWorld (trace w) (controllers w) (controller_of w) (transactions w) ss.

(** ** Synchronous code: state passing with exceptions *)

Definition M (A : Type) : Type := World -> Completion A * World.

Definition ret {A} (a : A) : M A := fun w => (Normal a, w).
Definition throw {A} (e : Error) : M A := fun w => (Throw e, w).

Definition bind {A B} (m : M A) (k : A -> M B) : M B := fun w =>
  match m w with
  | (Normal a, w1) => k a w1
  | (Throw e, w1) => (Throw e, w1)
  end.

Notation "x <- m ;; k" := (bind m (fun x => k))
  (at level 100, m at next level, right associativity).
Notation "m ;;; k" := (bind m (fun _ => k))
  (at level 100, right associativity).

(** [try { body } catch (e) { handler }] *)
Definition try_catch {A} (body : M A) (handler : Error -> M A) : M A :=
  fun w =>
    match body w with
    | (Normal a, w1) => (Normal a, w1)
    | (Throw e, w1) => handler e w1
    end.

(** [try { body } finally { fin }]: [fin] runs on both completions and,
    when it completes normally, the completion of [body] stands. *)
Definition try_finally {A} (body : M A) (fin : M unit) : M A :=
  fun w =>
    match body w with
    | (c, w1) =>
        match fin w1 with
        | (Normal _, w2) => (c, w2)
        | (Throw e, w2) => (Throw e, w2)
        end
    end.

Definition TypeError {A} : M A :=
  throw (Thrown ByRuntime "TypeError").

(** ** The store *)

Definition signal_aborted (w : World) (ctrl : nat) : bool :=
  match controllers w !! ctrl with Some b => b | None => false end.

(** [new AbortController()] *)
Definition new_AbortController : M nat := fun w =>
  (Normal (length (controllers w)),
   with_controllers (controllers w ++ [false]) w).

(** [controller.abort()]: fires the [abort] event once; a signal that is
    already aborted stays as it is. *)
Definition controller_abort (ctrl : nat) (w : World) : World :=
  match controllers w !! ctrl with
  | Some false =>
      emit (EvAbort ctrl) (with_controllers (<[ctrl := true]> (controllers w)) w)
  | _ => w
  end.

(** [connection.controller = controller] (index.ts:161) *)
Definition set_controller (c : ConnId) (ctrl : nat) : M unit := fun w =>
  (Normal tt, with_controller_of (<[c := ctrl]> (controller_of w)) w).

(** [connection.dispose()] *)
Definition connection_dispose (c : ConnId) (w : World) : World :=
  emit (EvDispose c) w.

(** [new TransactionImplementation(connection, onQuery)] (index.ts:46-52):
    the field initialiser sets [aborted] to [false]. *)
Definition new_TransactionImplementation (c : ConnId) : M nat := fun w =>
  (Normal (length (transactions w)),
   with_transactions
     (transactions w ++ [{| connection := c; aborted := false |}]) w).

(** [poolConnection.release()] *)
Definition release (pc : PoolConnection) : M unit := fun w =>
  (Normal tt, emit (EvRelease pc) w).

(** What a consumer may call on an async generator. *)
Inductive Pull : Type := Next | Return | ThrowInto (e : Error).

(** The module-level async generator [queryStream] (index.ts:68-82), with
    the promise [maybePoolConnection] it was given:
    - [SuspendedStart p q]: no line of the body has run; [p] is what the
      promise has settled to so far ([Waiting]: it is pending);
    - [AwaitingLease q queued]: the body is at its first line, the [await]
      of a pending promise; the calls made since are queued behind the
      [next()] that started it;
    - [SuspendedYield pc cur]: suspended at [yield], inside the [try];
    - [Completed]: the generator has ended;
    - [CompletedPending]: it was closed before it started, while the
      promise was pending: nothing will await that promise. *)
Inductive PoolStream : Type :=
| SuspendedStart (maybePoolConnection : Acquired) (q : SQLQuery)
| AwaitingLease (q : SQLQuery) (queued : list Pull)
| SuspendedYield (pc : PoolConnection) (cur : Cursor)
| Completed
| CompletedPending.

(** The caller-supplied function of [tx], as the tree of what it does with
    the transaction-scoped interface: each node is one of its calls, with
    what it does next for each answer. *)
Inductive TxProg (T : Type) : Type :=
| Resolve (v : T)                      (* its promise fulfils with [v] *)
| Reject (e : Error)                   (* it throws, or its promise rejects *)
| Forever                              (* its promise never settles *)
| CallQuery (q : SQLQuery) (k : Completion (list Row) -> TxProg T)
| CallQueryStream (q : SQLQuery) (k : Completion nat -> TxProg T)
| CallNext (sid : nat) (k : IterResult -> TxProg T)
| CallReturn (sid : nat) (k : IterResult -> TxProg T).
Arguments Resolve {T} v.
Arguments Reject {T} e.
Arguments Forever {T}.
Arguments CallQuery {T} q k.
Arguments CallQueryStream {T} q k.
Arguments CallNext {T} sid k.
Arguments CallReturn {T} sid k.

(** One turn of the event loop while [tx] is in flight: the caller's
    function runs up to its next call, or the pool's release timeout of
    this lease fires. *)
Inductive Turn : Type := RunFn | ReleaseTimeout.

Record TxRun (T : Type) : Type := mkRun
  { run_world : World;
    run_fn : TxProg T;            (* what is left of [fn(tx)] *)
    run_result : Settlement T }.  (* the promise [tx] returned *)
Arguments mkRun {T} _ _ _.
Arguments run_world {T} _.
Arguments run_fn {T} _.
Arguments run_result {T} _.

Section Layer.

Context (env : Env).

(** ** [DatabaseConnectionImplementation]: the hooks given to the pool *)

(** [#onQuery] (index.ts:111-117): formats the query and hands the record
    to the observer of [poolOptions], when there is one.  Both are code
    of the caller and may throw; the hook then throws what they threw. *)
Definition onQuery (q : SQLQuery) : M unit := fun w =>
  (match audit_throws env (trace w) q with
   | None => Normal tt
   | Some msg => Throw (Thrown ByObserver msg)
   end, emit (EvAudit (format q)) w).

(** [connection.query(q)] on a raw connection: the driver answers with the
    rows or throws. *)
Definition connection_query (c : ConnId) (q : SQLQuery) : M (list Row) :=
  fun w =>
    match driver_query env (trace w) c q with
    | inr rs => (Normal rs, emit (EvQuery c q) w)
    | inl msg => (Throw (Thrown ByDriver msg), emit (EvQuery c q) w)
    end.

(** [connection.queryStream(q)] and the first step of its iteration. *)
Definition connection_queryStream (c : ConnId) (q : SQLQuery)
  : World -> Cursor * World :=
  fun w => (driver_queryStream env (trace w) c q, emit (EvQueryStream c q) w).

(** [closeConnection] (index.ts:122-125) *)
Definition closeConnection (c : ConnId) : M unit := fun w =>
  (Normal tt, connection_dispose c w).

(** [onReleaseTimeout] (index.ts:126-133) *)
Definition onReleaseTimeout (c : ConnId) : M unit := fun w =>
  let w1 := match controller_of w !! c with
            | Some controller => controller_abort controller w
            | None => w
            end in
  (Normal tt, connection_dispose c w1).

(** ** [TransactionImplementation] *)

(** [query] (index.ts:54-60) *)
Definition Transaction_query (tx : nat) (q : SQLQuery) : M (list Row) :=
  fun w =>
    match transactions w !! tx with
    | None => TypeError w
    | Some this =>
        if aborted this then throw (TransactionAborted InQueryGuard) w
        else (onQuery q ;;; connection_query (connection this) q) w
    end.

(** [queryStream] (index.ts:62-65): audits, then builds the generator
    object; no line of [transactionalQueryStream] has run yet.  When the
    hook throws, no generator is built. *)
Definition Transaction_queryStream (tx : nat) (q : SQLQuery) : M nat :=
  fun w =>
    match transactions w !! tx with
    | None => TypeError w
    | Some _ =>
        (onQuery q ;;;
         (fun w1 => (Normal (length (streams w1)),
                     with_streams (streams w1 ++ [TxSuspendedStart tx q]) w1)))
          w
    end.

(** The [for] loop of [transactionalQueryStream] (index.ts:36-41), entered
    with what the driver has left: the row is taken from the driver, then
    the flag is read, then the row is yielded. *)
Definition transactional_loop (tx : nat) (cur : Cursor) (w : World)
  : IterResult * TxStream :=
  match rows cur with
  | row :: rest =>
      match transactions w !! tx with
      | None => (Raised (Thrown ByRuntime "TypeError"), TxCompleted)
      | Some transaction =>
          if aborted transaction
          then (Raised (TransactionAborted InStreamGuard), TxCompleted)
          else (Yielded row,
                TxSuspendedYield tx {| rows := rest; failure := failure cur |})
      end
  | [] =>
      match failure cur with
      | Some msg => (Raised (Thrown ByDriver msg), TxCompleted)
      | None => (Finished, TxCompleted)
      end
  end.

(** [next()] on the generator of [transactionalQueryStream]
    (index.ts:31-42). *)
Definition transactional_next (s : TxStream) (w : World)
  : IterResult * TxStream * World :=
  match s with
  | TxSuspendedStart tx q =>
      match transactions w !! tx with
      | None => (Raised (Thrown ByRuntime "TypeError"), TxCompleted, w)
      | Some transaction =>
          let '(cur, w1) :=
            connection_queryStream (connection transaction) q w in
          (transactional_loop tx cur w1, w1)
      end
  | TxSuspendedYield tx cur => (transactional_loop tx cur w, w)
  | TxCompleted => (Finished, TxCompleted, w)
  end.

(** [return()] on that generator: it has no [finally], so it only ends. *)
Definition transactional_return (s : TxStream) (w : World)
  : IterResult * TxStream * World :=
  (Finished, TxCompleted, w).

(** A call on the generator object [sid] of the store. *)
Definition on_stream (op : TxStream -> World -> IterResult * TxStream * World)
           (sid : nat) (w : World) : IterResult * World :=
  match streams w !! sid with
  | None => (Raised (Thrown ByRuntime "TypeError"), w)
  | Some s =>
      let '(r, s', w1) := op s w in
      (r, with_streams (<[sid := s']> (streams w1)) w1)
  end.

Definition transactionalQueryStream_next : nat -> World -> IterResult * World :=
  on_stream transactional_next.
Definition transactionalQueryStream_return : nat -> World -> IterResult * World :=
  on_stream transactional_return.

(** ** The module-level generator [queryStream] (index.ts:68-82) *)

(** The [finally] block (index.ts:79-81), through which every way out of
    the [try] block passes. *)
Definition leave_try (pc : PoolConnection) (r : IterResult) (w : World)
  : IterResult * PoolStream * World :=
  match release pc w with
  | (Normal _, w1) => (r, Completed, w1)
  | (Throw e, w1) => (Raised e, Completed, w1)
  end.

(** The [for] loop (index.ts:76-78). *)
Definition pool_loop (pc : PoolConnection) (cur : Cursor) (w : World)
  : IterResult * PoolStream * World :=
  match rows cur with
  | row :: rest =>
      (Yielded row,
       SuspendedYield pc {| rows := rest; failure := failure cur |}, w)
  | [] =>
      match failure cur with
      | Some msg => leave_try pc (Raised (Thrown ByDriver msg)) w
      | None => leave_try pc Finished w
      end
  end.

(** A rejection that no [await] will ever see is reported by the runtime
    as unhandled (which by default ends the process).  It is recorded at
    the moment nothing can await the promise any more. *)
Definition unhandled_rejection (e : Error) (w : World) : World :=
  emit (EvUnhandledRejection e) w.

(** [next()]: a generator that has not started runs from its first line,
    [await maybePoolConnection], which is outside the [try] block.  While
    the promise is pending the call is pending too, and the calls that
    follow queue behind it. *)
Definition queryStream_next (s : PoolStream) (w : World)
  : IterResult * PoolStream * World :=
  match s with
  | SuspendedStart Waiting q => (Stuck, AwaitingLease q [], w)
  | SuspendedStart (Refused msg) q => (Raised (Thrown ByPool msg), Completed, w)
  | SuspendedStart (Granted poolConnection) q =>
      let '(cur, w1) := connection_queryStream (pool_conn poolConnection) q w in
      pool_loop poolConnection cur w1
  | AwaitingLease q queued => (Stuck, AwaitingLease q (queued ++ [Next]), w)
  | SuspendedYield pc cur => pool_loop pc cur w
  | Completed => (Finished, Completed, w)
  | CompletedPending => (Finished, CompletedPending, w)
  end.

(** [return()]: a generator suspended at its [yield] leaves the [try]
    block through [finally]; one that has not started has run no line of
    its body and only becomes completed, so that nothing awaits its
    promise any more: a lease it was granted stays taken, and the pool's
    refusal is an unhandled rejection. *)
Definition queryStream_return (s : PoolStream) (w : World)
  : IterResult * PoolStream * World :=
  match s with
  | SuspendedStart (Granted _) _ => (Finished, Completed, w)
  | SuspendedStart (Refused msg) _ =>
      (Finished, Completed, unhandled_rejection (Thrown ByPool msg) w)
  | SuspendedStart Waiting _ => (Finished, CompletedPending, w)
  | AwaitingLease q queued => (Stuck, AwaitingLease q (queued ++ [Return]), w)
  | SuspendedYield pc _ => leave_try pc Finished w
  | Completed => (Finished, Completed, w)
  | CompletedPending => (Finished, CompletedPending, w)
  end.

(** [throw(e)]: likewise, with the error as the completion. *)
Definition queryStream_throw (e : Error) (s : PoolStream) (w : World)
  : IterResult * PoolStream * World :=
  match s with
  | SuspendedStart (Granted _) _ => (Raised e, Completed, w)
  | SuspendedStart (Refused msg) _ =>
      (Raised e, Completed, unhandled_rejection (Thrown ByPool msg) w)
  | SuspendedStart Waiting _ => (Raised e, CompletedPending, w)
  | AwaitingLease q queued =>
      (Stuck, AwaitingLease q (queued ++ [ThrowInto e]), w)
  | SuspendedYield pc _ => leave_try pc (Raised e) w
  | Completed => (Raised e, Completed, w)
  | CompletedPending => (Raised e, CompletedPending, w)
  end.

(** ** [DatabaseConnectionImplementation]: the public operations *)

(** [this.#pool.getConnection()]: what the pool does with the request at
    once; a granted lease is recorded.  A request the pool queues is
    settled by the pool later (for a stream: [lease_settles]); for [query]
    and [tx] the promise is pending as far as they are observed here. *)
Definition getConnection (w : World) : Acquired * World :=
  match pool_getConnection env (trace w) with
  | Granted pc => (Granted pc, emit (EvAcquire pc) w)
  | a => (a, w)
  end.

(** [query] (index.ts:138-147) *)
Definition Database_query (q : SQLQuery) (w : World)
  : Settlement (list Row) * World :=
  match getConnection w with
  | (Waiting, w0) => (Unsettled, w0)
  | (Refused msg, w0) => (Rejected (Thrown ByPool msg), w0)
  | (Granted poolConnection, w0) =>
      let '(c, w1) :=
        try_finally
          (onQuery q ;;;
           res <- connection_query (pool_conn poolConnection) q ;;
           ret res)
          (release poolConnection) w0 in
      (settle c, w1)
  end.

(** [queryStream] (index.ts:149-152): the audit and the call of
    [getConnection] happen here, in the call itself; the generator it
    returns has not started.  When the hook throws, the call throws and
    no lease is asked for. *)
Definition Database_queryStream (q : SQLQuery) (w : World)
  : Completion PoolStream * World :=
  match onQuery q w with
  | (Throw e, w1) => (Throw e, w1)
  | (Normal _, w1) =>
      let '(maybePoolConnection, w2) := getConnection w1 in
      (Normal (SuspendedStart maybePoolConnection q), w2)
  end.

(** ** [tx] (index.ts:154-180)

    [tx] suspends once, at [await Promise.race([...])].  Its body is cut
    there: [tx_before_await] is the [try] block up to the race,
    [tx_after_await] is the rest of the [try] block, entered with what the
    race settled to, and [tx_handlers] is the [catch] and [finally] that
    surround both. *)

(** index.ts:158-161; gives the transaction object and the controller. *)
Definition tx_before_await (poolConnection : PoolConnection) : M (nat * nat) :=
  let connection := pool_conn poolConnection in
  connection_query connection BEGIN ;;;
  controller <- new_AbortController ;;
  tx <- new_TransactionImplementation connection ;;
  set_controller connection controller ;;;
  ret (tx, controller).

(** index.ts:162-169, from the moment the race has settled. *)
Definition tx_after_await {T} (poolConnection : PoolConnection)
           (raced : Completion T) : M T :=
  let connection := pool_conn poolConnection in
  res <- (fun w => (raced, w)) ;;
  connection_query connection COMMIT ;;;
  ret res.

(** index.ts:170-179 *)
Definition tx_handlers {T} (poolConnection : PoolConnection) (body : M T)
  : M T :=
  let connection := pool_conn poolConnection in
  try_finally
    (try_catch body
       (fun e =>
          try_catch (connection_query connection ROLLBACK ;;; ret tt)
                    (fun _ => ret tt) ;;;   (* deliberately swallowed *)
          throw e))
    (release poolConnection).

(** One call of the caller's function on the transaction-scoped
    interface. *)
Definition fn_step {T} (tx : nat) (p : TxProg T) (w : World)
  : TxProg T * World :=
  match p with
  | Resolve _ | Reject _ | Forever => (p, w)
  | CallQuery q k =>
      let '(r, w1) := Transaction_query tx q w in (k r, w1)
  | CallQueryStream q k =>
      let '(r, w1) := Transaction_queryStream tx q w in (k r, w1)
  | CallNext sid k =>
      let '(r, w1) := transactionalQueryStream_next sid w in (k r, w1)
  | CallReturn sid k =>
      let '(r, w1) := transactionalQueryStream_return sid w in (k r, w1)
  end.

(** [tx] wakes up with what the race settled to and runs to its end. *)
Definition tx_resume {T} (pc : PoolConnection) (raced : Completion T)
           (p : TxProg T) (w : World) : TxRun T :=
  let '(c, w1) := tx_handlers pc (tx_after_await pc raced) w in
  mkRun w1 p (settle c).

(** One turn.  The race (index.ts:162-167) is settled by whichever comes
    first: the function's own settlement, or the [abort] event of the
    controller, on which the listener throws.  A turn is a task of the
    event loop: the reactions it queues (the listener's throw, the rest of
    [tx]) run before the next turn starts.  Once the race is settled the
    function may still run, and what it settles to is dropped; the lease
    being over, its timeout does not fire any more. *)
Definition turn {T} (pc : PoolConnection) (tx controller : nat) (t : Turn)
           (st : TxRun T) : TxRun T :=
  let w := run_world st in
  match run_result st, t with
  | Unsettled, RunFn =>
      match run_fn st with
      | Resolve v => tx_resume pc (Normal v) (run_fn st) w
      | Reject e => tx_resume pc (Throw e) (run_fn st) w
      | p => let '(p1, w1) := fn_step tx p w in mkRun w1 p1 Unsettled
      end
  | Unsettled, ReleaseTimeout =>
      let '(_, w1) := onReleaseTimeout (pool_conn pc) w in
      if signal_aborted w1 controller
      then tx_resume pc (Throw (TransactionAborted InRace)) (run_fn st) w1
      else mkRun w1 (run_fn st) Unsettled
  | r, RunFn =>
      let '(p1, w1) := fn_step tx (run_fn st) w in mkRun w1 p1 r
  | _, ReleaseTimeout => st
  end.

Definition run_turns {T} (pc : PoolConnection) (tx controller : nat)
           (sched : list Turn) (st : TxRun T) : TxRun T :=
  fold_left (fun s t => turn pc tx controller t s) sched st.

(** [tx(fn)], observed over the turns of [sched]. *)
Definition Database_tx {T} (fn : TxProg T) (sched : list Turn) (w : World)
  : TxRun T :=
  match getConnection w with
  | (Waiting, w0) => mkRun w0 fn Unsettled
  | (Refused msg, w0) => mkRun w0 fn (Rejected (Thrown ByPool msg))
  | (Granted poolConnection, w0) =>
      match tx_before_await poolConnection w0 with
      | (Throw e, w1) =>
          (* the [try] block has thrown before its [await] *)
          let '(c, w2) := tx_handlers poolConnection (throw e) w1 in
          mkRun w2 fn (settle c)
      | (Normal (tx, controller), w1) =>
          run_turns poolConnection tx controller sched (mkRun w1 fn Unsettled)
      end
  end.

End Layer.

(** ** Reading traces *)

Definition is_audit (ev : Event) : bool :=
  match ev with EvAudit _ => true | _ => false end.

Definition is_dispatch (ev : Event) : bool :=
  match ev with EvQuery _ _ | EvQueryStream _ _ => true | _ => false end.

Definition is_release_of (pc : PoolConnection) (ev : Event) : bool :=
  match ev with
  | EvRelease pc' =>
      Nat.eqb (pool_conn pc) (pool_conn pc') && Nat.eqb (lease pc) (lease pc')
  | _ => false
  end.

Definition is_pool_event (ev : Event) : bool :=
  match ev with EvAcquire _ | EvRelease _ => true | _ => false end.

Definition count (p : Event -> bool) (tr : list Event) : nat :=
  length (List.filter p tr).

(** The queries the audit hook saw, and the queries the driver saw. *)
Definition audited (tr : list Event) : list onQueryParamters :=
  omap (fun ev => match ev with EvAudit a => Some a | _ => None end) tr.

Definition dispatched (tr : list Event) : list SQLQuery :=
  omap (fun ev => match ev with
                  | EvQuery _ q | EvQueryStream _ q => Some q
                  | _ => None
                  end) tr.

(** No transaction object of the store has its flag set. *)
Definition flags_clear (w : World) : Prop :=
  Forall (fun t => aborted t = false) (transactions w).

(** The store apart from the trace and the generator objects. *)
Definition same_objects (w w1 : World) : Prop :=
  controllers w1 = controllers w /\
  controller_of w1 = controller_of w /\
  transactions w1 = transactions w.

(** ** Sample collaborators and inputs *)

Definition disposed (c : ConnId) (tr : list Event) : bool :=
  existsb (fun ev => match ev with
                     | EvDispose c' => Nat.eqb c c'
                     | _ => false
                     end) tr.

Definition lease0 : PoolConnection := {| pool_conn := 0; lease := 0 |}.
Definition row42 : Row := [("foo", 42%Z)].
Definition row3 : Row := [("bar", 3%Z)].
Definition select1 : SQLQuery := sql "SELECT 1 + ? as foo" [41%Z].

(** A pool that always grants connection 0 and a driver that answers
    every query with one row until the connection is disposed. *)
Definition sample_env : Env :=
  {| pool_getConnection := fun _ => Granted lease0;
     driver_query := fun tr c _ =>
       if disposed c tr then inl "connection closed" else inr [row42];
     driver_queryStream := fun tr c _ =>
       {| rows := [row42; row3]; failure := None |};
     audit_throws := fun _ _ => None |}.

(** The same, with a driver that refuses [COMMIT] and [ROLLBACK]. *)
Definition failing_commit_env : Env :=
  {| pool_getConnection := fun _ => Granted lease0;
     driver_query := fun tr c q =>
       if String.eqb (text q) "COMMIT" || String.eqb (text q) "ROLLBACK"
       then inl "SQLITE_BUSY" else inr [row42];
     driver_queryStream := fun tr c _ =>
       {| rows := []; failure := None |};
     audit_throws := fun _ _ => None |}.

(** The same as [sample_env], with an observer that throws at every
    call. *)
Definition throwing_observer_env : Env :=
  {| pool_getConnection := fun _ => Granted lease0;
     driver_query := fun tr c _ =>
       if disposed c tr then inl "connection closed" else inr [row42];
     driver_queryStream := fun tr c _ =>
       {| rows := [row42; row3]; failure := None |};
     audit_throws := fun _ _ => Some "observer failed" |}.

(** The same, with an observer that throws at its second call only. *)
Definition second_audit_throws_env : Env :=
  {| pool_getConnection := fun _ => Granted lease0;
     driver_query := fun tr c _ =>
       if disposed c tr then inl "connection closed" else inr [row42];
     driver_queryStream := fun tr c _ =>
       {| rows := [row42; row3]; failure := None |};
     audit_throws := fun tr _ =>
       if Nat.eqb (count is_audit tr) 1 then Some "observer failed"
       else None |}.


(** ** Consumers of a stream *)

Definition pull (env : Env) (p : Pull) (s : PoolStream) (w : World)
  : IterResult * PoolStream * World :=
  match p with
  | Next => queryStream_next env s w
  | Return => queryStream_return s w
  | ThrowInto e => queryStream_throw e s w
  end.

(** A consumer's calls on one pool-level generator, in order. *)
Fixpoint consume (env : Env) (script : list Pull) (s : PoolStream)
         (w : World) : PoolStream * World :=
  match script with
  | [] => (s, w)
  | p :: rest => let '(_, s1, w1) := pull env p s w in consume env rest s1 w1
  end.

(** The calls that were queued behind a pending [next()], answered in
    order once it is answered. *)
Fixpoint answer_queued (env : Env) (queued : list Pull) (s : PoolStream)
         (w : World) : list IterResult * PoolStream * World :=
  match queued with
  | [] => ([], s, w)
  | p :: rest =>
      let '(r, s1, w1) := pull env p s w in
      let '(rs, s2, w2) := answer_queued env rest s1 w1 in
      (r :: rs, s2, w2)
  end.

(** The pool settles the promise it gave to [queryStream] to [a], some
    time after the call.  A granted lease is recorded.  A generator that
    awaits the promise goes on from its first line, and the pending calls
    are answered, the first [next()] first.  A generator that has not
    started keeps the promise as it is settled.  For one that was closed
    before, nothing awaits the promise: the lease stays taken, and a
    refusal is an unhandled rejection. *)
Definition lease_settles (env : Env) (a : Acquired) (s : PoolStream)
           (w : World) : list IterResult * PoolStream * World :=
  match a with
  | Waiting => ([], s, w)
  | _ =>
      let w0 := match a with Granted pc => emit (EvAcquire pc) w | _ => w end in
      match s with
      | SuspendedStart Waiting q => ([], SuspendedStart a q, w0)
      | AwaitingLease q queued =>
          let '(r, s1, w1) := queryStream_next env (SuspendedStart a q) w0 in
          let '(rs, s2, w2) := answer_queued env queued s1 w1 in
          (r :: rs, s2, w2)
      | CompletedPending =>
          match a with
          | Refused msg =>
              ([], Completed, unhandled_rejection (Thrown ByPool msg) w)
          | _ => ([], Completed, w0)
          end
      | _ => ([], s, w)
      end
  end.

(** What happens to a pool-level generator: a call of its consumer, or
    the pool settling its promise. *)
Inductive StreamEvent : Type :=
| Called (p : Pull)
| LeaseSettles (a : Acquired).

Definition happen (env : Env) (ev : StreamEvent) (s : PoolStream) (w : World)
  : PoolStream * World :=
  match ev with
  | Called p => let '(_, s1, w1) := pull env p s w in (s1, w1)
  | LeaseSettles a => let '(_, s1, w1) := lease_settles env a s w in (s1, w1)
  end.

Fixpoint observe (env : Env) (evs : list StreamEvent) (s : PoolStream)
         (w : World) : PoolStream * World :=
  match evs with
  | [] => (s, w)
  | ev :: rest => let '(s1, w1) := happen env ev s w in observe env rest s1 w1
  end.

Inductive TxPull : Type := TxNext | TxReturn.

Definition tx_pull (env : Env) (p : TxPull) (s : TxStream) (w : World)
  : IterResult * TxStream * World :=
  match p with
  | TxNext => transactional_next env s w
  | TxReturn => transactional_return s w
  end.

(** The calls on one transaction-scoped generator, in order. *)
Fixpoint tx_consume (env : Env) (script : list TxPull) (s : TxStream)
         (w : World) : TxStream * World :=
  match script with
  | [] => (s, w)
  | p :: rest =>
      let '(_, s1, w1) := tx_pull env p s w in tx_consume env rest s1 w1
  end.

(** ** Callers that build no abort error of their own *)

Definition clean {A} (c : Completion A) : Prop :=
  match c with
  | Normal _ => True
  | Throw e => is_transaction_aborted e = false
  end.

Definition clean_iter (r : IterResult) : Prop :=
  match r with
  | Raised e => is_transaction_aborted e = false
  | _ => True
  end.

(** The function rejects with a "Transaction aborted" error only if the
    interface handed it one. *)
Fixpoint forges_no_abort {T} (p : TxProg T) : Prop :=
  match p with
  | Resolve _ | Forever => True
  | Reject e => is_transaction_aborted e = false
  | CallQuery _ k => forall r, clean r -> forges_no_abort (k r)
  | CallQueryStream _ k => forall r, clean r -> forges_no_abort (k r)
  | CallNext _ k | CallReturn _ k =>
      forall r, clean_iter r -> forges_no_abort (k r)
  end.

(** ** Histories of the layer *)

(** The calls a process can make on the layer, and the calls the pool
    makes on its hooks.  [OpTx] is a whole call of [tx] observed over a
    schedule; [OpTurn] is one turn of any transaction in flight, so that
    the turns of several transactions may interleave; [OpPull] is one
    call on any pool-level generator, and [OpLeaseSettles] the pool
    settling the promise of one. *)
Inductive Op : Type :=
| OpQuery (q : SQLQuery)
| OpQueryStream (q : SQLQuery) (script : list Pull)
| OpPull (p : Pull) (s : PoolStream)
| OpLeaseSettles (a : Acquired) (s : PoolStream)
| OpTx (T : Type) (fn : TxProg T) (sched : list Turn)
| OpTurn (T : Type) (pc : PoolConnection) (tx controller : nat)
         (p : TxProg T) (r : Settlement T) (t : Turn)
| OpReleaseTimeout (c : ConnId)
| OpCloseConnection (c : ConnId).

Definition exec (env : Env) (w : World) (op : Op) : World :=
  match op with
  | OpQuery q => snd (Database_query env q w)
  | OpQueryStream q script =>
      match Database_queryStream env q w with
      | (Normal s, w1) => snd (consume env script s w1)
      | (Throw _, w1) => w1
      end
  | OpPull p s => snd (pull env p s w)
  | OpLeaseSettles a s => snd (lease_settles env a s w)
  | OpTx T fn sched => run_world (Database_tx env fn sched w)
  | OpTurn T pc tx controller p r t =>
      run_world (turn env pc tx controller t (mkRun w p r))
  | OpReleaseTimeout c => snd (onReleaseTimeout c w)
  | OpCloseConnection c => snd (closeConnection c w)
  end.

Definition history (env : Env) (ops : list Op) : World :=
  fold_left (exec env) ops initial_world.

(** ** The lease of a transaction in flight *)

(** The controller that [tx] attached is still the connection's, and its
    signal has not fired. *)
Definition lease_armed (pc : PoolConnection) (controller : nat) (w : World)
  : Prop :=
  controller_of w !! pool_conn pc = Some controller /\
  controllers w !! controller = Some false.

(** The store when [tx] reaches its [await]: [BEGIN] was accepted on the
    granted lease, the controller and the transaction object are new. *)
Definition world_at_await (pc : PoolConnection) (w : World) : World :=
  mkWorld (trace w ++ [EvAcquire pc; EvQuery (pool_conn pc) BEGIN])
          (controllers w ++ [false])
          (<[pool_conn pc := length (controllers w)]> (controller_of w))
          (transactions w
             ++ [{| connection := pool_conn pc; aborted := false |}])
          (streams w).

(** Events of the caller's own calls on the transaction-scoped interface:
    audits and dispatches, nothing of the pool or of a controller. *)
Definition is_call (ev : Event) : bool := is_audit ev || is_dispatch ev.

Definition extends_by_calls (w w1 : World) : Prop :=
  exists calls, trace w1 = trace w ++ calls /\ forallb is_call calls = true.

(** What calls on the interface of a transaction on connection [c] add to
    the trace, call by call: [query] adds the audit of its statement and
    then the statement itself on [c]; [queryStream], and a [query] whose
    observer throws, add the audit alone; the first [next()] on a stream
    adds the dispatch of the stream's statement.  So every statement sent
    by [query] comes right after its own audit. *)
Inductive fn_calls (c : ConnId) : list Event -> Prop :=
| fn_calls_nil : fn_calls c []
| fn_calls_query q rest :
    fn_calls c rest -> fn_calls c (EvAudit (format q) :: EvQuery c q :: rest)
| fn_calls_audit q rest :
    fn_calls c rest -> fn_calls c (EvAudit (format q) :: rest)
| fn_calls_next c' q rest :
    fn_calls c rest -> fn_calls c (EvQueryStream c' q :: rest).

(** ** Reading a generator *)

(** The transaction a generator that has not completed belongs to. *)
Definition stream_transaction (s : TxStream) : option nat :=
  match s with
  | TxSuspendedStart tx _ | TxSuspendedYield tx _ => Some tx
  | TxCompleted => None
  end.

(** What the driver has left for the generator at its next step: the rest
    of its cursor, or the whole answer when it has not started. *)
Definition driver_has_left (env : Env) (s : TxStream) (w : World) : Cursor :=
  match s with
  | TxSuspendedYield _ cur => cur
  | TxSuspendedStart tx q =>
      match transactions w !! tx with
      | Some t => driver_queryStream env (trace w) (connection t) q
      | None => {| rows := []; failure := None |}
      end
  | TxCompleted => {| rows := []; failure := None |}
  end.

Definition is_yield (r : IterResult) : bool :=
  match r with Yielded _ => true | _ => false end.

Definition is_completed (s : PoolStream) : bool :=
  match s with Completed | CompletedPending => true | _ => false end.

(** The query a generator may still send to the driver. *)
Definition to_dispatch (s : PoolStream) : option SQLQuery :=
  match s with
  | SuspendedStart _ q | AwaitingLease q _ => Some q
  | _ => None
  end.

(** Between two moments of a generator nothing was audited, and either
    nothing was dispatched, or the query it had still to send was
    dispatched and it has none to send any more. *)
Definition dispatch_step (s : PoolStream) (w : World)
           (s1 : PoolStream) (w1 : World) : Prop :=
  audited (trace w1) = audited (trace w) /\
  ((dispatched (trace w1) = dispatched (trace w) /\
    (to_dispatch s1 = None \/ to_dispatch s1 = to_dispatch s)) \/
   (exists q, to_dispatch s = Some q /\ to_dispatch s1 = None /\
              dispatched (trace w1) = dispatched (trace w) ++ [q])).

Definition tx_has_started (s : TxStream) : bool :=
  match s with TxSuspendedStart _ _ => false | _ => true end.

(** ** Further sample inputs *)

Definition aborted_transaction : TransactionImplementation :=
  {| connection := 0; aborted := true |}.

(** The store of a transaction in flight on the first lease, once the
    caller's function has written [true] to the public field [aborted] of
    the transaction object it was given.  No operation of the layer writes
    the field. *)
Definition aborted_world : World :=
  with_transactions [aborted_transaction]
                    (world_at_await lease0 initial_world).

(** A stream of transaction 0 in the middle of its rows, one row left. *)
Definition one_row_left : TxStream :=
  TxSuspendedYield 0 {| rows := [row3]; failure := None |}.

(** The caller's function of the test "never releasing", which goes on to
    query once more after the timeout. *)
Definition late_fn : TxProg Z :=
  CallQuery select1 (fun _ => Resolve 7%Z).

Definition boom : Error := Thrown ByUser "boom".

(** A store whose connection 0 has been disposed: the sample driver
    refuses every statement on it, [BEGIN] and [ROLLBACK] included. *)
Definition disposed_world : World := emit (EvDispose 0) initial_world.

Definition sample_ops : list Op :=
  [OpTx Z late_fn [ReleaseTimeout; RunFn; RunFn];
   OpReleaseTimeout 0;
   OpQuery select1].

(** Unfolds the store updates and puts the trace in one list. *)
Ltac flatten_world :=
  unfold connection_dispose in *;
  unfold emit, with_controllers, with_controller_of,
    with_transactions, with_streams in *;
  cbn [trace controllers controller_of transactions streams settle
       run_world run_fn run_result fst snd] in *;
  rewrite <- ?(assoc_L (++)); cbn [app];
  try reflexivity.

(** ** Callers written out *)

(** What ends the driver's row sequence: its end, or its failure. *)
Definition end_of (cur : Cursor) : IterResult :=
  match failure cur with
  | Some msg => Raised (Thrown ByDriver msg)
  | None => Finished
  end.

(** [for await (const row of db.queryStream(q)) results.push(row)], the
    loop of the streaming test: it asks for rows until the stream ends or
    raises, and gives the rows it got with what ended it.  [None] when
    [fuel] iterations were not enough. *)
Fixpoint for_await (env : Env) (fuel : nat) (s : PoolStream) (w : World)
         (results : list Row)
  : option (list Row * IterResult) * PoolStream * World :=
  match fuel with
  | 0 => (None, s, w)
  | S fuel' =>
      match queryStream_next env s w with
      | (Yielded row, s1, w1) => for_await env fuel' s1 w1 (results ++ [row])
      | (r, s1, w1) => (Some (results, r), s1, w1)
      end
  end.

(** The same loop with [if (results.length === n) break;] after the push,
    for [n = S left]: leaving the loop by [break] calls [return()] on the
    generator. *)
Fixpoint for_await_break (env : Env) (left : nat) (s : PoolStream)
         (w : World) (results : list Row) {struct left}
  : list Row * IterResult * PoolStream * World :=
  match queryStream_next env s w with
  | (Yielded row, s1, w1) =>
      match left with
      | 0 =>
          let '(r, s2, w2) := queryStream_return s1 w1 in
          (results ++ [row], r, s2, w2)
      | S left' => for_await_break env left' s1 w1 (results ++ [row])
      end
  | (r, s1, w1) => (results, r, s1, w1)
  end.

(** [for await (const row of tx.queryStream(q)) results.push(row)] inside
    the function of a transaction. *)
Fixpoint tx_for_await (env : Env) (fuel : nat) (s : TxStream) (w : World)
         (results : list Row)
  : option (list Row * IterResult) * TxStream * World :=
  match fuel with
  | 0 => (None, s, w)
  | S fuel' =>
      match transactional_next env s w with
      | (Yielded row, s1, w1) =>
          tx_for_await env fuel' s1 w1 (results ++ [row])
      | (r, s1, w1) => (Some (results, r), s1, w1)
      end
  end.

(** The function of the test "transaction", for any number of queries:
    [async (tx) => { a = await tx.query(q1); b = await tx.query(q2); ...;
    return [a, b, ...] }].  A query that throws is not caught. *)
Fixpoint fn_queries (qs : list SQLQuery) (results : list (list Row))
  : TxProg (list (list Row)) :=
  match qs with
  | [] => Resolve results
  | q :: rest =>
      CallQuery q (fun r =>
        match r with
        | Normal rs => fn_queries rest (results ++ [rs])
        | Throw e => Reject e
        end)
  end.

(** The statements [qs] sent one after the other through [query] on a
    transaction on connection [c] whose flag is clear, each answered
    before the next is sent, from the trace [tr]: the answers so far and
    the trace, up to the first statement that the observer or the driver
    refuses. *)
Fixpoint queries_in_order (env : Env) (c : ConnId) (qs : list SQLQuery)
         (tr : list Event) (results : list (list Row))
  : Completion (list (list Row)) * list Event :=
  match qs with
  | [] => (Normal results, tr)
  | q :: rest =>
      match audit_throws env tr q with
      | Some thrown =>
          (Throw (Thrown ByObserver thrown), tr ++ [EvAudit (format q)])
      | None =>
          match driver_query env (tr ++ [EvAudit (format q)]) c q with
          | inl msg =>
              (Throw (Thrown ByDriver msg),
               tr ++ [EvAudit (format q); EvQuery c q])
          | inr rs =>
              queries_in_order env c rest
                               (tr ++ [EvAudit (format q); EvQuery c q])
                               (results ++ [rs])
          end
      end
  end.

(** The events with which [tx] settles to [r]: what its [try] block still
    sends, then the [catch] and [finally] blocks. *)
Definition settling_events {T} (pc : PoolConnection) (controller : nat)
           (r : Settlement T) (evs : list Event) : Prop :=
  let c := pool_conn pc in
  match r with
  | Fulfilled _ => evs = [EvQuery c COMMIT; EvRelease pc]
  | Rejected _ =>
      evs = [EvQuery c ROLLBACK; EvRelease pc] \/
      evs = [EvQuery c COMMIT; EvQuery c ROLLBACK; EvRelease pc] \/
      evs = [EvAbort controller; EvDispose c;
             EvQuery c ROLLBACK; EvRelease pc]
  | Unsettled => evs = []
  end.

Definition is_settled {T} (r : Settlement T) : bool :=
  match r with Unsettled => false | _ => true end.

(** Every connection's controller exists, and no two connections share
    one. *)
Definition controllers_wf (w : World) : Prop :=
  (forall c k, controller_of w !! c = Some k -> k < length (controllers w)) /\
  (forall c1 c2 k,
      controller_of w !! c1 = Some k -> controller_of w !! c2 = Some k ->
      c1 = c2).

(** A pool that opens a new connection for every lease and a driver that
    answers every statement. *)
Definition fresh_connections_env : Env :=
  {| pool_getConnection := fun tr =>
       Granted {| pool_conn := count is_pool_event tr;
                  lease := count is_pool_event tr |};
     driver_query := fun _ _ _ => inr [row42];
     driver_queryStream := fun _ _ _ =>
       {| rows := [row42; row3]; failure := None |};
     audit_throws := fun _ _ => None |}.


(** A driver whose stream fails after its first row. *)
Definition failing_stream_env : Env :=
  {| pool_getConnection := fun _ => Granted lease0;
     driver_query := fun _ _ _ => inr [row42];
     driver_queryStream := fun _ _ _ =>
       {| rows := [row42]; failure := Some "SQLITE_ERROR" |};
     audit_throws := fun _ _ => None |}.

Definition select2 : SQLQuery := sql "SELECT 1 + 2 as bar;" [].

(** Two transactions in flight, on connections 0 and 1. *)
Definition two_transactions : list Op :=
  [OpTx Z Forever []; OpTx Z Forever []].

(** * Proofs *)

Lemma count_app p tr1 tr2 : count p (tr1 ++ tr2) = count p tr1 + count p tr2.
Proof. unfold count. by rewrite List.filter_app, length_app. Qed.

Lemma trace_emit ev w : trace (emit ev w) = trace w ++ [ev].
Proof. reflexivity. Qed.

Lemma same_objects_refl w : same_objects w w.
Proof. by repeat split. Qed.

Lemma same_objects_trans w1 w2 w3 :
  same_objects w1 w2 -> same_objects w2 w3 -> same_objects w1 w3.
Proof.
  intros (A1 & A2 & A3) (B1 & B2 & B3).
  repeat split; congruence.
Qed.

Lemma same_objects_emit ev w : same_objects w (emit ev w).
Proof. by repeat split. Qed.

Lemma flags_clear_same w w1 : same_objects w w1 -> flags_clear w -> flags_clear w1.
Proof. intros (_ & _ & E) H. unfold flags_clear. by rewrite E. Qed.

Section Proofs.

Context (env : Env).

(** *** Symbolic execution of the pieces *)

Lemma connection_query_run c q w :
  connection_query env c q w =
    (match driver_query env (trace w) c q with
     | inr rs => Normal rs
     | inl msg => Throw (Thrown ByDriver msg)
     end, emit (EvQuery c q) w).
Proof. unfold connection_query. by destruct (driver_query _ _ _ _). Qed.

(** A failure of the [try] block of [tx] reaches the caller as it is, after
    a [ROLLBACK] whose own outcome is not looked at, and a release. *)
Lemma tx_handlers_throw {T} pc (body : M T) w e w1 :
  body w = (Throw e, w1) ->
  tx_handlers env pc body w =
    (Throw e, emit (EvRelease pc) (emit (EvQuery (pool_conn pc) ROLLBACK) w1)).
Proof.
  intros Hbody. unfold tx_handlers, try_finally, try_catch, bind.
  rewrite Hbody, connection_query_run.
  by destruct (driver_query _ _ _ _).
Qed.

Lemma tx_handlers_normal {T} pc (body : M T) w v w1 :
  body w = (Normal v, w1) ->
  tx_handlers env pc body w = (Normal v, emit (EvRelease pc) w1).
Proof.
  intros Hbody. unfold tx_handlers, try_finally, try_catch.
  by rewrite Hbody.
Qed.

Lemma tx_after_await_throw {T} pc (e : Error) w :
  tx_after_await (T := T) env pc (Throw e) w = (Throw e, w).
Proof. reflexivity. Qed.

Lemma tx_after_await_normal {T} pc (v : T) w :
  tx_after_await env pc (Normal v) w =
    (match driver_query env (trace w) (pool_conn pc) COMMIT with
     | inr _ => Normal v
     | inl msg => Throw (Thrown ByDriver msg)
     end, emit (EvQuery (pool_conn pc) COMMIT) w).
Proof.
  unfold tx_after_await, bind. rewrite connection_query_run.
  by destruct (driver_query _ _ _ _).
Qed.

Lemma tx_resume_throw {T} pc (e : Error) (p : TxProg T) w :
  tx_resume env pc (Throw e) p w =
    mkRun (emit (EvRelease pc) (emit (EvQuery (pool_conn pc) ROLLBACK) w))
          p (Rejected e).
Proof.
  unfold tx_resume.
  by rewrite (tx_handlers_throw pc _ w e w (tx_after_await_throw pc e w)).
Qed.

Lemma tx_resume_normal {T} pc (v : T) (p : TxProg T) w :
  tx_resume env pc (Normal v) p w =
    match driver_query env (trace w) (pool_conn pc) COMMIT with
    | inr _ =>
        mkRun (emit (EvRelease pc) (emit (EvQuery (pool_conn pc) COMMIT) w))
              p (Fulfilled v)
    | inl msg =>
        mkRun (emit (EvRelease pc)
                 (emit (EvQuery (pool_conn pc) ROLLBACK)
                    (emit (EvQuery (pool_conn pc) COMMIT) w)))
              p (Rejected (Thrown ByDriver msg))
    end.
Proof.
  unfold tx_resume.
  pose proof (tx_after_await_normal pc v w) as Hafter.
  destruct (driver_query env (trace w) (pool_conn pc) COMMIT) as [msg|rs].
  - by rewrite (tx_handlers_throw pc _ w _ _ Hafter).
  - by rewrite (tx_handlers_normal pc _ w _ _ Hafter).
Qed.

Lemma tx_before_await_run pc w :
  tx_before_await env pc w =
    match driver_query env (trace w) (pool_conn pc) BEGIN with
    | inl msg =>
        (Throw (Thrown ByDriver msg), emit (EvQuery (pool_conn pc) BEGIN) w)
    | inr _ =>
        (Normal (length (transactions w), length (controllers w)),
         mkWorld (trace w ++ [EvQuery (pool_conn pc) BEGIN])
                 (controllers w ++ [false])
                 (<[pool_conn pc := length (controllers w)]> (controller_of w))
                 (transactions w
                    ++ [{| connection := pool_conn pc; aborted := false |}])
                 (streams w))
    end.
Proof.
  unfold tx_before_await, bind. rewrite connection_query_run.
  by destruct (driver_query _ _ _ _).
Qed.

(** *** The one-shot query *)

(** C8 (amended).  A one-shot [query(q)] asks the pool for a lease.  When
    the pool refuses, the promise rejects with the pool's failure and
    nothing else happens; while the pool keeps the request waiting the
    promise is pending.  On a granted lease [query] runs the audit hook.
    When the hook returns, the query is dispatched on the leased
    connection and the lease is released, in this order and whatever the
    driver answered, and the promise settles to the driver's rows, or to
    the driver's failure as the driver threw it.  When the hook throws,
    nothing is dispatched, the lease is released, and the promise rejects
    with what the hook threw. *)
Theorem query_acquire_audit_dispatch_release q w :
  Database_query env q w =
    match pool_getConnection env (trace w) with
    | Granted pc =>
        match audit_throws env (trace w ++ [EvAcquire pc]) q with
        | None =>
            (match driver_query env
                     (trace w ++ [EvAcquire pc; EvAudit (format q)])
                     (pool_conn pc) q
             with
             | inr rs => Fulfilled rs
             | inl msg => Rejected (Thrown ByDriver msg)
             end,
             mkWorld (trace w ++ [EvAcquire pc; EvAudit (format q);
                                  EvQuery (pool_conn pc) q; EvRelease pc])
                     (controllers w) (controller_of w) (transactions w)
                     (streams w))
        | Some thrown =>
            (Rejected (Thrown ByObserver thrown),
             mkWorld (trace w ++ [EvAcquire pc; EvAudit (format q);
                                  EvRelease pc])
                     (controllers w) (controller_of w) (transactions w)
                     (streams w))
        end
    | Refused msg => (Rejected (Thrown ByPool msg), w)
    | Waiting => (Unsettled, w)
    end.
Proof.
  unfold Database_query, getConnection.
  destruct (pool_getConnection env (trace w)) as [pc|msg|]; [|done|done].
  unfold try_finally, bind, onQuery, release, ret.
  rewrite trace_emit.
  destruct (audit_throws env _ q) as [thrown|]; [flatten_world|].
  rewrite connection_query_run. flatten_world.
  destruct (driver_query _ _ _ _); flatten_world.
Qed.

(** *** What the caller's function can touch *)

Lemma Transaction_query_cases tx q w :
  Transaction_query env tx q w =
    match transactions w !! tx with
    | None => (Throw (Thrown ByRuntime "TypeError"), w)
    | Some this =>
        if aborted this then (Throw (TransactionAborted InQueryGuard), w)
        else
          match audit_throws env (trace w) q with
          | Some thrown =>
              (Throw (Thrown ByObserver thrown), emit (EvAudit (format q)) w)
          | None =>
              (match driver_query env (trace w ++ [EvAudit (format q)])
                       (connection this) q
               with
               | inr rs => Normal rs
               | inl msg => Throw (Thrown ByDriver msg)
               end,
               emit (EvQuery (connection this) q)
                    (emit (EvAudit (format q)) w))
          end
    end.
Proof.
  unfold Transaction_query.
  destruct (transactions w !! tx) as [this|]; [|done].
  destruct (aborted this); [done|].
  unfold bind, onQuery. destruct (audit_throws env (trace w) q); [done|].
  by rewrite connection_query_run.
Qed.

Lemma Transaction_queryStream_cases tx q w :
  Transaction_queryStream env tx q w =
    match transactions w !! tx with
    | None => (Throw (Thrown ByRuntime "TypeError"), w)
    | Some _ =>
        match audit_throws env (trace w) q with
        | Some thrown =>
            (Throw (Thrown ByObserver thrown), emit (EvAudit (format q)) w)
        | None =>
            (Normal (length (streams w)),
             with_streams (streams w ++ [TxSuspendedStart tx q])
                          (emit (EvAudit (format q)) w))
        end
    end.
Proof.
  unfold Transaction_queryStream.
  destruct (transactions w !! tx) as [this|]; [|done].
  unfold bind, onQuery. by destruct (audit_throws env (trace w) q).
Qed.

Lemma Transaction_query_same tx q w :
  same_objects w (snd (Transaction_query env tx q w)).
Proof.
  rewrite Transaction_query_cases.
  destruct (transactions w !! tx) as [this|]; [|apply same_objects_refl].
  destruct (aborted this); [apply same_objects_refl|].
  destruct (audit_throws env (trace w) q); by repeat split.
Qed.

Lemma Transaction_queryStream_same tx q w :
  same_objects w (snd (Transaction_queryStream env tx q w)).
Proof.
  rewrite Transaction_queryStream_cases.
  destruct (transactions w !! tx); [|apply same_objects_refl].
  destruct (audit_throws env (trace w) q); by repeat split.
Qed.

Lemma transactional_next_same s w :
  same_objects w (snd (transactional_next env s w)).
Proof.
  destruct s as [tx q|tx cur|]; simpl; try apply same_objects_refl.
  destruct (transactions w !! tx); simpl; [|apply same_objects_refl].
  by repeat split.
Qed.

Lemma on_stream_same op sid w :
  (forall s w0, same_objects w0 (snd (op s w0))) ->
  same_objects w (snd (on_stream op sid w)).
Proof.
  intros Hop. unfold on_stream.
  destruct (streams w !! sid) as [s|]; [|apply same_objects_refl].
  specialize (Hop s w). destruct (op s w) as [[r s1] w1]. simpl in *.
  destruct Hop as (? & ? & ?). by repeat split.
Qed.

Lemma fn_step_same {T} tx (p : TxProg T) w :
  same_objects w (snd (fn_step env tx p w)).
Proof.
  destruct p as [v|e| |q k|q k|sid k|sid k]; simpl;
    try apply same_objects_refl.
  - pose proof (Transaction_query_same tx q w) as H.
    by destruct (Transaction_query env tx q w).
  - pose proof (Transaction_queryStream_same tx q w) as H.
    by destruct (Transaction_queryStream env tx q w).
  - pose proof (on_stream_same (transactional_next env) sid w
                  transactional_next_same) as H.
    unfold transactionalQueryStream_next.
    by destruct (on_stream _ sid w).
  - pose proof (on_stream_same transactional_return sid w
                  (fun s w0 => same_objects_refl w0)) as H.
    unfold transactionalQueryStream_return.
    by destruct (on_stream _ sid w).
Qed.

Lemma lease_armed_same pc ctrl w w1 :
  same_objects w w1 -> lease_armed pc ctrl w -> lease_armed pc ctrl w1.
Proof.
  intros (E1 & E2 & _) [H1 H2]. unfold lease_armed. by rewrite E1, E2.
Qed.

(** *** The turns of a transaction in flight *)

Lemma turn_settled {T} pc tx ctrl t (st : TxRun T) :
  run_result st <> Unsettled ->
  run_result (turn env pc tx ctrl t st) = run_result st.
Proof.
  intros Hs. unfold turn.
  destruct (run_result st) eqn:E; [| |done]; destruct t; try by rewrite ?E.
  - by destruct (fn_step env tx (run_fn st) (run_world st)).
  - by destruct (fn_step env tx (run_fn st) (run_world st)).
Qed.

Lemma run_turns_settled {T} pc tx ctrl sched (st : TxRun T) :
  run_result st <> Unsettled ->
  run_result (run_turns env pc tx ctrl sched st) = run_result st.
Proof.
  revert st. induction sched as [|t sched IH]; intros st Hs; [done|].
  simpl. rewrite IH; rewrite turn_settled; done.
Qed.

Lemma run_turns_app {T} pc tx ctrl l1 l2 (st : TxRun T) :
  run_turns env pc tx ctrl (l1 ++ l2) st =
  run_turns env pc tx ctrl l2 (run_turns env pc tx ctrl l1 st).
Proof. apply fold_left_app. Qed.

(** The release timeout of an armed lease settles the race: the hook
    aborts the controller and disposes the connection, the listener
    throws, and [tx] rolls back and releases. *)
Lemma turn_timeout {T} pc tx ctrl (st : TxRun T) :
  lease_armed pc ctrl (run_world st) ->
  run_result st = Unsettled ->
  turn env pc tx ctrl ReleaseTimeout st =
    mkRun (mkWorld (trace (run_world st)
                      ++ [EvAbort ctrl; EvDispose (pool_conn pc);
                          EvQuery (pool_conn pc) ROLLBACK; EvRelease pc])
                   (<[ctrl := true]> (controllers (run_world st)))
                   (controller_of (run_world st))
                   (transactions (run_world st))
                   (streams (run_world st)))
          (run_fn st) (Rejected (TransactionAborted InRace)).
Proof.
  intros [Hc Hs] Hr. unfold turn. rewrite Hr.
  unfold onReleaseTimeout. rewrite Hc. unfold controller_abort. rewrite Hs.
  assert (signal_aborted
            (connection_dispose (pool_conn pc)
               (emit (EvAbort ctrl)
                  (with_controllers (<[ctrl:=true]> (controllers (run_world st)))
                     (run_world st)))) ctrl = true) as ->.
  { unfold signal_aborted. flatten_world.
    rewrite list_lookup_insert_eq; [done|]. by eapply lookup_lt_Some. }
  rewrite tx_resume_throw. flatten_world.
Qed.

(** A turn that leaves the race unsettled leaves the lease armed. *)
Lemma turn_armed {T} pc tx ctrl t (st : TxRun T) :
  lease_armed pc ctrl (run_world st) ->
  run_result (turn env pc tx ctrl t st) = Unsettled ->
  run_result st = Unsettled /\
  lease_armed pc ctrl (run_world (turn env pc tx ctrl t st)).
Proof.
  intros Harmed Hafter.
  destruct (run_result st) eqn:Hr;
    try (rewrite turn_settled in Hafter by (rewrite Hr; done); congruence).
  split; [done|]. destruct t.
  - revert Hafter. unfold turn. rewrite Hr.
    pose proof (fn_step_same tx (run_fn st) (run_world st)) as Hsame.
    destruct (run_fn st) eqn:Hp;
      try (rewrite ?tx_resume_throw, ?tx_resume_normal;
           try destruct (driver_query _ _ _ _); done);
      destruct (fn_step _ _ _ _) as [p1 w1]; simpl in *; intros _;
      by eapply lease_armed_same.
  - rewrite turn_timeout in Hafter by done. done.
Qed.

Lemma run_turns_armed {T} pc tx ctrl sched (st : TxRun T) :
  lease_armed pc ctrl (run_world st) ->
  run_result (run_turns env pc tx ctrl sched st) = Unsettled ->
  lease_armed pc ctrl (run_world (run_turns env pc tx ctrl sched st)).
Proof.
  revert st. induction sched as [|t sched IH]; intros st Harmed Hafter; [done|].
  simpl in *. apply IH; [|done].
  destruct (run_result (turn env pc tx ctrl t st)) eqn:Hr.
  - rewrite run_turns_settled in Hafter by (rewrite Hr; done). congruence.
  - rewrite run_turns_settled in Hafter by (rewrite Hr; done). congruence.
  - by apply turn_armed.
Qed.

(** *** [tx] from its call *)

Lemma Database_tx_granted {T} (fn : TxProg T) sched w pc :
  pool_getConnection env (trace w) = Granted pc ->
  Database_tx env fn sched w =
    match driver_query env (trace w ++ [EvAcquire pc]) (pool_conn pc) BEGIN with
    | inl msg =>
        mkRun (mkWorld (trace w ++ [EvAcquire pc; EvQuery (pool_conn pc) BEGIN;
                                    EvQuery (pool_conn pc) ROLLBACK;
                                    EvRelease pc])
                       (controllers w) (controller_of w) (transactions w)
                       (streams w))
              fn (Rejected (Thrown ByDriver msg))
    | inr _ =>
        run_turns env pc (length (transactions w)) (length (controllers w))
                  sched (mkRun (world_at_await pc w) fn Unsettled)
    end.
Proof.
  intros Hpool. unfold Database_tx, getConnection. rewrite Hpool.
  rewrite tx_before_await_run. flatten_world.
  destruct (driver_query _ _ _ _) as [msg|rs]; [|done].
  erewrite tx_handlers_throw by reflexivity. flatten_world.
Qed.

Lemma world_at_await_armed pc w :
  lease_armed pc (length (controllers w)) (world_at_await pc w).
Proof.
  split; simpl.
  - apply lookup_insert_eq.
  - rewrite lookup_app_r by done. by rewrite Nat.sub_diag.
Qed.

Lemma Database_tx_app {T} (fn : TxProg T) sched more w pc :
  pool_getConnection env (trace w) = Granted pc ->
  run_result (Database_tx env fn sched w) = Unsettled ->
  Database_tx env fn (sched ++ more) w =
    run_turns env pc (length (transactions w)) (length (controllers w)) more
              (Database_tx env fn sched w).
Proof.
  intros Hpool. rewrite !(Database_tx_granted fn _ w pc Hpool).
  destruct (driver_query _ _ _ _); [done|].
  intros _. apply run_turns_app.
Qed.

Lemma Database_tx_armed {T} (fn : TxProg T) sched w pc :
  pool_getConnection env (trace w) = Granted pc ->
  run_result (Database_tx env fn sched w) = Unsettled ->
  lease_armed pc (length (controllers w))
              (run_world (Database_tx env fn sched w)).
Proof.
  intros Hpool. rewrite (Database_tx_granted fn _ w pc Hpool).
  destruct (driver_query _ _ _ _); [done|].
  apply run_turns_armed, world_at_await_armed.
Qed.

(** *** What the caller's function adds to the trace *)

Lemma extends_by_calls_refl w : extends_by_calls w w.
Proof. exists []. by rewrite app_nil_r. Qed.

Lemma extends_by_calls_trans w1 w2 w3 :
  extends_by_calls w1 w2 -> extends_by_calls w2 w3 -> extends_by_calls w1 w3.
Proof.
  intros (c1 & E1 & H1) (c2 & E2 & H2). exists (c1 ++ c2). split.
  - by rewrite E2, E1, (assoc_L (++)).
  - by rewrite forallb_app, H1, H2.
Qed.

Lemma Transaction_query_calls tx q w :
  extends_by_calls w (snd (Transaction_query env tx q w)).
Proof.
  rewrite Transaction_query_cases.
  destruct (transactions w !! tx) as [this|]; [|apply extends_by_calls_refl].
  destruct (aborted this); [apply extends_by_calls_refl|].
  destruct (audit_throws env (trace w) q).
  - by exists [EvAudit (format q)].
  - exists [EvAudit (format q); EvQuery (connection this) q].
    split; [flatten_world|done].
Qed.

Lemma Transaction_queryStream_calls tx q w :
  extends_by_calls w (snd (Transaction_queryStream env tx q w)).
Proof.
  rewrite Transaction_queryStream_cases.
  destruct (transactions w !! tx); [|apply extends_by_calls_refl].
  destruct (audit_throws env (trace w) q); by exists [EvAudit (format q)].
Qed.

Lemma transactional_next_calls s w :
  extends_by_calls w (snd (transactional_next env s w)).
Proof.
  destruct s as [tx q|tx cur|]; simpl; try apply extends_by_calls_refl.
  destruct (transactions w !! tx) as [t|]; simpl;
    [|apply extends_by_calls_refl].
  by exists [EvQueryStream (connection t) q].
Qed.

Lemma on_stream_calls op sid w :
  (forall s w0, extends_by_calls w0 (snd (op s w0))) ->
  extends_by_calls w (snd (on_stream op sid w)).
Proof.
  intros Hop. unfold on_stream.
  destruct (streams w !! sid) as [s|]; [|apply extends_by_calls_refl].
  specialize (Hop s w). by destruct (op s w) as [[r s1] w1].
Qed.

Lemma fn_step_calls {T} tx (p : TxProg T) w :
  extends_by_calls w (snd (fn_step env tx p w)).
Proof.
  destruct p as [v|e| |q k|q k|sid k|sid k]; simpl;
    try apply extends_by_calls_refl.
  - pose proof (Transaction_query_calls tx q w) as H.
    by destruct (Transaction_query env tx q w).
  - pose proof (Transaction_queryStream_calls tx q w) as H.
    by destruct (Transaction_queryStream env tx q w).
  - pose proof (on_stream_calls (transactional_next env) sid w
                  transactional_next_calls) as H.
    unfold transactionalQueryStream_next.
    by destruct (on_stream _ sid w).
  - pose proof (on_stream_calls transactional_return sid w
                  (fun s w0 => extends_by_calls_refl w0)) as H.
    unfold transactionalQueryStream_return.
    by destruct (on_stream _ sid w).
Qed.

(** Once [tx] has settled, a turn is at most a call of the function. *)
Lemma turn_after_settled {T} pc tx ctrl t (st : TxRun T) :
  run_result st <> Unsettled ->
  extends_by_calls (run_world st) (run_world (turn env pc tx ctrl t st)).
Proof.
  intros Hs. unfold turn.
  destruct (run_result st) eqn:E; [| |done]; destruct t;
    try apply extends_by_calls_refl.
  - pose proof (fn_step_calls tx (run_fn st) (run_world st)) as H.
    by destruct (fn_step env tx (run_fn st) (run_world st)).
  - pose proof (fn_step_calls tx (run_fn st) (run_world st)) as H.
    by destruct (fn_step env tx (run_fn st) (run_world st)).
Qed.

Lemma run_turns_after_settled {T} pc tx ctrl sched (st : TxRun T) :
  run_result st <> Unsettled ->
  extends_by_calls (run_world st)
                   (run_world (run_turns env pc tx ctrl sched st)).
Proof.
  revert st. induction sched as [|t sched IH]; intros st Hs;
    [apply extends_by_calls_refl|].
  simpl. eapply extends_by_calls_trans; [by apply turn_after_settled|].
  apply IH. by rewrite turn_settled.
Qed.

(** A function that has settled makes no call. *)
Lemma turn_fn_settled {T} pc tx ctrl (st : TxRun T) :
  run_result st <> Unsettled ->
  match run_fn st with Resolve _ | Reject _ => True | _ => False end ->
  turn env pc tx ctrl RunFn st = st.
Proof.
  intros Hs Hfn. unfold turn. destruct st as [w p r]. simpl in *.
  destruct r; [| |done]; by destruct p.
Qed.

(** *** The race *)

(** C5.  While [tx] awaits the race, a release timeout settles it: [tx]
    rejects with the "Transaction aborted" error of the listener, after
    the hook's abort and dispose and its own rollback and release.
    Whatever the function does in later turns adds only its own calls to
    the trace and leaves that rejection in place; when it has resolved or
    rejected, the turn in which it does so changes nothing at all. *)
Theorem tx_abort_wins_race {T} (fn : TxProg T) sched later w pc :
  pool_getConnection env (trace w) = Granted pc ->
  run_result (Database_tx env fn sched w) = Unsettled ->
  let before := Database_tx env fn sched w in
  let after := Database_tx env fn (sched ++ ReleaseTimeout :: later) w in
  run_result after = Rejected (TransactionAborted InRace) /\
  message (TransactionAborted InRace) = "Transaction aborted" /\
  (exists calls,
      trace (run_world after) =
        trace (run_world before)
          ++ [EvAbort (length (controllers w)); EvDispose (pool_conn pc);
              EvQuery (pool_conn pc) ROLLBACK; EvRelease pc]
          ++ calls /\
      forallb is_call calls = true) /\
  (match run_fn after with Resolve _ | Reject _ => True | _ => False end ->
   Database_tx env fn (sched ++ (ReleaseTimeout :: later) ++ [RunFn]) w = after).
Proof.
  intros Hpool Hrace before after.
  pose proof (Database_tx_armed fn sched w pc Hpool Hrace) as Harmed.
  assert (after =
          run_turns env pc (length (transactions w)) (length (controllers w))
            later
            (turn env pc (length (transactions w)) (length (controllers w))
               ReleaseTimeout before)) as Hafter.
  { unfold after. by rewrite (Database_tx_app fn sched _ w pc Hpool Hrace). }
  pose proof (turn_timeout pc (length (transactions w)) _ before Harmed Hrace)
    as Htimeout.
  assert (run_result after = Rejected (TransactionAborted InRace)) as Hres.
  { rewrite Hafter, run_turns_settled; by rewrite Htimeout. }
  split; [done|]. split; [done|]. split.
  - destruct (run_turns_after_settled pc (length (transactions w))
                (length (controllers w)) later
                (turn env pc (length (transactions w)) (length (controllers w))
                   ReleaseTimeout before)) as (calls & Htr & Hcalls).
    { by rewrite Htimeout. }
    exists calls. split; [|done].
    rewrite Hafter, Htr, Htimeout. cbn [run_world trace].
    by rewrite <- (assoc_L (++)).
  - intros Hfn.
    rewrite (assoc_L (++)).
    assert (Database_tx env fn (sched ++ ReleaseTimeout :: later) w = after)
      as Hsame by done.
    rewrite (Database_tx_granted fn (sched ++ ReleaseTimeout :: later) w pc
               Hpool) in Hsame.
    rewrite (Database_tx_granted fn ((sched ++ ReleaseTimeout :: later)
                                       ++ [RunFn]) w pc Hpool).
    rewrite (Database_tx_granted fn sched w pc Hpool) in Hrace.
    destruct (driver_query _ _ _ _); [done|].
    rewrite run_turns_app, Hsame. simpl.
    apply turn_fn_settled; [by rewrite Hres | done].
Qed.

(** *** Commit and rollback *)

Lemma Database_tx_turn {T} (fn : TxProg T) sched t w pc :
  pool_getConnection env (trace w) = Granted pc ->
  run_result (Database_tx env fn sched w) = Unsettled ->
  Database_tx env fn (sched ++ [t]) w =
    turn env pc (length (transactions w)) (length (controllers w)) t
         (Database_tx env fn sched w).
Proof. intros Hpool Hrace. by rewrite (Database_tx_app fn sched _ w pc). Qed.

(** C7 (amended).  When the race is still open and the function has
    returned [v], the turn that takes its result sends [COMMIT] on the
    leased connection.  If the driver accepts it, the lease is released
    and [tx] fulfils with [v]; if the driver refuses it, [tx] rolls back,
    releases, and rejects with the driver's failure. *)
Theorem tx_commits_then_returns {T} (fn : TxProg T) sched w pc (v : T) :
  pool_getConnection env (trace w) = Granted pc ->
  run_result (Database_tx env fn sched w) = Unsettled ->
  run_fn (Database_tx env fn sched w) = Resolve v ->
  let before := run_world (Database_tx env fn sched w) in
  let after := Database_tx env fn (sched ++ [RunFn]) w in
  match driver_query env (trace before) (pool_conn pc) COMMIT with
  | inr _ =>
      run_result after = Fulfilled v /\
      trace (run_world after) =
        trace before ++ [EvQuery (pool_conn pc) COMMIT; EvRelease pc]
  | inl msg =>
      run_result after = Rejected (Thrown ByDriver msg) /\
      trace (run_world after) =
        trace before ++ [EvQuery (pool_conn pc) COMMIT;
                         EvQuery (pool_conn pc) ROLLBACK; EvRelease pc]
  end.
Proof.
  intros Hpool Hrace Hfn before after. unfold after, before.
  rewrite (Database_tx_turn fn sched RunFn w pc Hpool Hrace).
  unfold turn. rewrite Hrace, Hfn, tx_resume_normal.
  destruct (driver_query _ _ _ _); split; flatten_world.
Qed.

(** C4.  On a granted lease, each failure of [tx] is followed by a
    [ROLLBACK] on the leased connection and by the release of the lease,
    and [tx] rejects with that failure, whatever the driver answers to
    the [ROLLBACK]: (1) [BEGIN] refused; (2) the function rejects;
    (3) the abort wins the race; (4) [COMMIT] refused. *)
Theorem tx_failure_rolls_back {T} (fn : TxProg T) sched w pc :
  pool_getConnection env (trace w) = Granted pc ->
  let c := pool_conn pc in
  let before := Database_tx env fn sched w in
  let after t := Database_tx env fn (sched ++ [t]) w in
  (forall msg,
      driver_query env (trace w ++ [EvAcquire pc]) c BEGIN = inl msg ->
      run_result before = Rejected (Thrown ByDriver msg) /\
      trace (run_world before) =
        trace w ++ [EvAcquire pc; EvQuery c BEGIN;
                    EvQuery c ROLLBACK; EvRelease pc]) /\
  (forall e,
      run_result before = Unsettled -> run_fn before = Reject e ->
      run_result (after RunFn) = Rejected e /\
      trace (run_world (after RunFn)) =
        trace (run_world before) ++ [EvQuery c ROLLBACK; EvRelease pc]) /\
  (run_result before = Unsettled ->
   run_result (after ReleaseTimeout) = Rejected (TransactionAborted InRace) /\
   trace (run_world (after ReleaseTimeout)) =
     trace (run_world before)
       ++ [EvAbort (length (controllers w)); EvDispose c;
           EvQuery c ROLLBACK; EvRelease pc]) /\
  (forall v msg,
      run_result before = Unsettled -> run_fn before = Resolve v ->
      driver_query env (trace (run_world before)) c COMMIT = inl msg ->
      run_result (after RunFn) = Rejected (Thrown ByDriver msg) /\
      trace (run_world (after RunFn)) =
        trace (run_world before)
          ++ [EvQuery c COMMIT; EvQuery c ROLLBACK; EvRelease pc]).
Proof.
  intros Hpool c before after. unfold after, before, c.
  split; [|split; [|split]].
  - intros msg Hbegin.
    rewrite (Database_tx_granted fn sched w pc Hpool), Hbegin. done.
  - intros e Hrace Hfn.
    rewrite (Database_tx_turn fn sched RunFn w pc Hpool Hrace).
    unfold turn. rewrite Hrace, Hfn, tx_resume_throw.
    split; flatten_world.
  - intros Hrace.
    rewrite (Database_tx_turn fn sched ReleaseTimeout w pc Hpool Hrace).
    rewrite turn_timeout by (by apply Database_tx_armed || done). done.
  - intros v msg Hrace Hfn Hcommit.
    rewrite (Database_tx_turn fn sched RunFn w pc Hpool Hrace).
    unfold turn. rewrite Hrace, Hfn, tx_resume_normal, Hcommit.
    split; flatten_world.
Qed.

(** *** The flag of a transaction object *)

Lemma onReleaseTimeout_transactions c w :
  transactions (snd (onReleaseTimeout c w)) = transactions w.
Proof.
  unfold onReleaseTimeout, controller_abort. simpl.
  destruct (controller_of w !! c) as [ctrl|]; [|done].
  by destruct (controllers w !! ctrl) as [[]|].
Qed.

Lemma tx_resume_transactions {T} pc (raced : Completion T) p w :
  transactions (run_world (tx_resume env pc raced p w)) = transactions w.
Proof.
  destruct raced as [v|e].
  - rewrite tx_resume_normal. by destruct (driver_query _ _ _ _).
  - by rewrite tx_resume_throw.
Qed.

Lemma turn_transactions {T} pc tx ctrl t (st : TxRun T) :
  transactions (run_world (turn env pc tx ctrl t st))
  = transactions (run_world st).
Proof.
  unfold turn.
  pose proof (fn_step_same tx (run_fn st) (run_world st)) as (_ & _ & Hfn).
  pose proof (onReleaseTimeout_transactions (pool_conn pc) (run_world st))
    as Hhook.
  destruct (run_result st), t; try done;
    try (by destruct (fn_step env tx (run_fn st) (run_world st))).
  - destruct (run_fn st) eqn:Hp; rewrite ?tx_resume_transactions; try done;
      rewrite <- Hp in *;
      by destruct (fn_step env tx (run_fn st) (run_world st)).
  - destruct (onReleaseTimeout (pool_conn pc) (run_world st)) as [u w1].
    simpl in Hhook.
    destruct (signal_aborted w1 ctrl); by rewrite ?tx_resume_transactions.
Qed.

Lemma run_turns_transactions {T} pc tx ctrl sched (st : TxRun T) :
  transactions (run_world (run_turns env pc tx ctrl sched st))
  = transactions (run_world st).
Proof.
  revert st. induction sched as [|t sched IH]; intros st; [done|].
  simpl. by rewrite IH, turn_transactions.
Qed.

Lemma getConnection_same w : same_objects w (snd (getConnection env w)).
Proof.
  unfold getConnection.
  destruct (pool_getConnection env (trace w)); by repeat split.
Qed.

Lemma Database_tx_flags {T} (fn : TxProg T) sched w :
  flags_clear w -> flags_clear (run_world (Database_tx env fn sched w)).
Proof.
  intros Hw. unfold flags_clear.
  destruct (pool_getConnection env (trace w)) as [pc|msg|] eqn:Hpool.
  - rewrite (Database_tx_granted fn sched w pc Hpool).
    destruct (driver_query _ _ _ _); [done|].
    rewrite run_turns_transactions. simpl.
    apply Forall_app. split; [done|]. by constructor.
  - unfold Database_tx, getConnection. by rewrite Hpool.
  - unfold Database_tx, getConnection. by rewrite Hpool.
Qed.

Lemma Database_query_same q w :
  same_objects w (snd (Database_query env q w)).
Proof.
  unfold Database_query, getConnection.
  destruct (pool_getConnection env (trace w)) as [pc|msg|];
    try apply same_objects_refl.
  unfold try_finally, bind, onQuery, release, ret.
  destruct (audit_throws env _ q); [by repeat split|].
  rewrite connection_query_run.
  destruct (driver_query _ _ _ _); by repeat split.
Qed.

Lemma leave_try_same pc r w : same_objects w (snd (leave_try pc r w)).
Proof. by repeat split. Qed.

Lemma pool_loop_same pc cur w : same_objects w (snd (pool_loop pc cur w)).
Proof.
  unfold pool_loop. destruct (rows cur); [|apply same_objects_refl].
  destruct (failure cur); apply leave_try_same.
Qed.

Lemma pull_same p s w : same_objects w (snd (pull env p s w)).
Proof.
  destruct p, s as [[pc|msg|] q|q queued|pc cur| |]; simpl;
    try apply same_objects_refl; try apply same_objects_emit;
    try apply pool_loop_same.
  eapply same_objects_trans; [|apply pool_loop_same].
  apply same_objects_emit.
Qed.

Lemma answer_queued_same queued s w :
  same_objects w (snd (answer_queued env queued s w)).
Proof.
  revert s w. induction queued as [|p queued IH]; intros s w;
    [apply same_objects_refl|].
  simpl. pose proof (pull_same p s w) as Hp.
  destruct (pull env p s w) as [[r s1] w1].
  specialize (IH s1 w1).
  destruct (answer_queued env queued s1 w1) as [[rs s2] w2].
  eapply same_objects_trans; [exact Hp|exact IH].
Qed.

Lemma lease_settles_same a s w :
  same_objects w (snd (lease_settles env a s w)).
Proof.
  unfold lease_settles.
  destruct a as [pc|msg|]; [| |apply same_objects_refl];
    (destruct s as [[pc0|msg0|] q|q queued|pc0 cur| |]; simpl;
     try apply same_objects_refl; try apply same_objects_emit).
  - pose proof (pull_same Next (SuspendedStart (Granted pc) q)
                  (emit (EvAcquire pc) w)) as Hn. simpl in Hn.
    destruct (pool_loop pc _ _) as [[r s1] w1].
    pose proof (answer_queued_same queued s1 w1) as Hq.
    destruct (answer_queued env queued s1 w1) as [[rs s2] w2].
    eapply same_objects_trans; [|exact Hq].
    eapply same_objects_trans; [apply same_objects_emit|exact Hn].
  - pose proof (answer_queued_same queued Completed w) as Hq.
    by destruct (answer_queued env queued Completed w) as [[rs s2] w2].
Qed.

Lemma consume_same script s w :
  same_objects w (snd (consume env script s w)).
Proof.
  revert s w. induction script as [|p script IH]; intros s w;
    [apply same_objects_refl|].
  simpl. pose proof (pull_same p s w) as Hp.
  destruct (pull env p s w) as [[r s1] w1].
  eapply same_objects_trans; [exact Hp|apply IH].
Qed.

Lemma Database_queryStream_same q w :
  same_objects w (snd (Database_queryStream env q w)).
Proof.
  unfold Database_queryStream, onQuery.
  destruct (audit_throws env (trace w) q); [apply same_objects_emit|].
  pose proof (getConnection_same (emit (EvAudit (format q)) w)) as H.
  destruct (getConnection env _) as [a w2]. simpl in *.
  eapply same_objects_trans; [apply same_objects_emit|exact H].
Qed.

Lemma OpQueryStream_same q script w :
  same_objects w (exec env w (OpQueryStream q script)).
Proof.
  cbn [exec]. pose proof (Database_queryStream_same q w) as H.
  destruct (Database_queryStream env q w) as [[s|e] w1]; [|exact H].
  eapply same_objects_trans; [exact H|apply consume_same].
Qed.

Lemma exec_flags w op : flags_clear w -> flags_clear (exec env w op).
Proof.
  intros Hw.
  destruct op as [q|q script|p s|a s|T fn sched|T pc tx ctrl p r t|c|c];
    try (eapply flags_clear_same; [apply OpQueryStream_same|done]);
    cbn [exec].
  - eapply flags_clear_same; [apply Database_query_same|done].
  - eapply flags_clear_same; [apply pull_same|done].
  - eapply flags_clear_same; [apply lease_settles_same|done].
  - by apply Database_tx_flags.
  - unfold flags_clear. by rewrite turn_transactions.
  - unfold flags_clear. by rewrite onReleaseTimeout_transactions.
  - done.
Qed.

Lemma history_flags ops : flags_clear (history env ops).
Proof.
  unfold history.
  assert (flags_clear initial_world) as Hinit by constructor.
  revert Hinit. generalize initial_world.
  induction ops as [|op ops IH]; intros w Hw; [done|].
  simpl. apply IH. by apply exec_flags.
Qed.

(** With every flag clear, neither guard fires. *)
Lemma Transaction_query_clean tx q w :
  flags_clear w -> clean (fst (Transaction_query env tx q w)).
Proof.
  intros Hw. unfold Transaction_query.
  destruct (transactions w !! tx) as [this|] eqn:Hthis; [|done].
  assert (aborted this = false) as ->.
  { eapply (proj1 (Forall_lookup _ _) Hw). exact Hthis. }
  unfold bind, onQuery. destruct (audit_throws env _ q); [done|].
  rewrite connection_query_run.
  by destruct (driver_query _ _ _ _).
Qed.

Lemma transactional_loop_clean tx cur w :
  flags_clear w -> clean_iter (fst (transactional_loop tx cur w)).
Proof.
  intros Hw. unfold transactional_loop.
  destruct (rows cur) as [|row rest].
  - by destruct (failure cur).
  - destruct (transactions w !! tx) as [t|] eqn:Ht; [|done].
    assert (aborted t = false) as ->; [|done].
    eapply (proj1 (Forall_lookup _ _) Hw). exact Ht.
Qed.

Lemma transactional_next_clean s w :
  flags_clear w -> clean_iter (fst (fst (transactional_next env s w))).
Proof.
  intros Hw. destruct s as [tx q|tx cur|]; simpl; [| |done].
  - destruct (transactions w !! tx) as [t|]; [|done]. simpl.
    apply transactional_loop_clean.
    eapply flags_clear_same; [apply same_objects_emit|done].
  - by apply transactional_loop_clean.
Qed.

Lemma on_stream_clean op sid w :
  (forall s, clean_iter (fst (fst (op s w)))) ->
  clean_iter (fst (on_stream op sid w)).
Proof.
  intros Hop. unfold on_stream.
  destruct (streams w !! sid) as [s|]; [|done].
  specialize (Hop s). by destruct (op s w) as [[r s1] w1].
Qed.

Lemma fn_step_honest {T} tx (p : TxProg T) w :
  flags_clear w -> forges_no_abort p ->
  forges_no_abort (fst (fn_step env tx p w)).
Proof.
  intros Hw Hp.
  destruct p as [v|e| |q k|q k|sid k|sid k]; simpl in *; try done.
  - pose proof (Transaction_query_clean tx q w Hw) as H.
    destruct (Transaction_query env tx q w) as [r w1]. by apply Hp.
  - assert (clean (fst (Transaction_queryStream env tx q w))) as H.
    { rewrite Transaction_queryStream_cases.
      destruct (transactions w !! tx); [|done].
      by destruct (audit_throws env (trace w) q). }
    destruct (Transaction_queryStream env tx q w) as [r w1]. by apply Hp.
  - pose proof (on_stream_clean (transactional_next env) sid w
                  (fun s => transactional_next_clean s w Hw)) as H.
    unfold transactionalQueryStream_next.
    destruct (on_stream _ sid w) as [r w1]. by apply Hp.
  - pose proof (on_stream_clean transactional_return sid w
                  (fun s => I)) as H.
    unfold transactionalQueryStream_return.
    destruct (on_stream _ sid w) as [r w1]. by apply Hp.
Qed.

(** The only abort error [tx] can reject with is the listener's. *)
Lemma turn_abort_origin {T} pc tx ctrl t (st : TxRun T) :
  flags_clear (run_world st) ->
  forges_no_abort (run_fn st) ->
  (forall site, run_result st = Rejected (TransactionAborted site) ->
                site = InRace) ->
  forges_no_abort (run_fn (turn env pc tx ctrl t st)) /\
  (forall site,
      run_result (turn env pc tx ctrl t st) = Rejected (TransactionAborted site) ->
      site = InRace).
Proof.
  intros Hw Hfn Hres.
  pose proof (fn_step_honest tx (run_fn st) (run_world st) Hw Hfn) as Hstep.
  assert (forall r : Settlement T,
             (forall site, r = Rejected (TransactionAborted site) ->
                           site = InRace) ->
             let st1 := let '(p1, w1) := fn_step env tx (run_fn st) (run_world st)
                        in mkRun w1 p1 r in
             forges_no_abort (run_fn st1) /\
             (forall site, run_result st1 = Rejected (TransactionAborted site) ->
                           site = InRace)) as Hcall.
  { intros r Hr. destruct (fn_step env tx (run_fn st) (run_world st)).
    by split. }
  unfold turn.
  destruct (run_result st) eqn:Hr, t.
  - by apply Hcall.
  - rewrite Hr. by split.
  - by apply Hcall.
  - rewrite Hr. by split.
  - destruct (run_fn st) eqn:Hp; try (by apply Hcall).
    + rewrite tx_resume_normal. by destruct (driver_query _ _ _ _).
    + rewrite tx_resume_throw. simpl in *. split; [done|].
      intros site [= ->]. done.
  - destruct (onReleaseTimeout (pool_conn pc) (run_world st)) as [u w1].
    destruct (signal_aborted w1 ctrl); [|by split].
    rewrite tx_resume_throw. simpl. split; [done|]. by intros site [= <-].
Qed.

Lemma run_turns_abort_origin {T} pc tx ctrl sched (st : TxRun T) :
  flags_clear (run_world st) ->
  forges_no_abort (run_fn st) ->
  (forall site, run_result st = Rejected (TransactionAborted site) ->
                site = InRace) ->
  forall site,
    run_result (run_turns env pc tx ctrl sched st)
    = Rejected (TransactionAborted site) ->
    site = InRace.
Proof.
  revert st. induction sched as [|t sched IH]; intros st Hw Hfn Hres; [done|].
  simpl. destruct (turn_abort_origin pc tx ctrl t st Hw Hfn Hres) as [H1 H2].
  apply IH; [|done|done].
  unfold flags_clear. by rewrite turn_transactions.
Qed.

Lemma Database_tx_abort_origin {T} (fn : TxProg T) sched w site :
  flags_clear w -> forges_no_abort fn ->
  run_result (Database_tx env fn sched w) = Rejected (TransactionAborted site) ->
  site = InRace.
Proof.
  intros Hw Hfn.
  destruct (pool_getConnection env (trace w)) as [pc|msg|] eqn:Hpool.
  - rewrite (Database_tx_granted fn sched w pc Hpool).
    destruct (driver_query _ _ _ _); [done|].
    apply run_turns_abort_origin; [|done|done].
    unfold flags_clear. simpl. apply Forall_app. split; [done|].
    by constructor.
  - unfold Database_tx, getConnection. by rewrite Hpool.
  - unfold Database_tx, getConnection. by rewrite Hpool.
Qed.

(** C10.  Whatever calls were made on the layer and on its hooks, in
    whatever order, no transaction object has its [aborted] flag set: no
    operation, the release-timeout hook included, writes it.  So neither
    guard fires: a transaction-scoped [query], and [next] on a
    transaction-scoped stream in any state, never answer with a
    "Transaction aborted" error; and when [tx] rejects with one that its
    function did not build itself, it is the one of the race. *)
Theorem aborted_flag_is_never_set (ops : list Op) :
  let w := history env ops in
  Forall (fun t => aborted t = false) (transactions w) /\
  (forall tx q, clean (fst (Transaction_query env tx q w))) /\
  (forall s, clean_iter (fst (fst (transactional_next env s w)))) /\
  (forall T (fn : TxProg T) sched site,
      forges_no_abort fn ->
      run_result (Database_tx env fn sched w)
      = Rejected (TransactionAborted site) ->
      site = InRace).
Proof.
  intros w. pose proof (history_flags ops) as Hw. fold w in Hw.
  split; [exact Hw|]. split; [|split].
  - intros tx q. by apply Transaction_query_clean.
  - intros s. by apply transactional_next_clean.
  - intros T fn sched site Hfn. by apply Database_tx_abort_origin.
Qed.

(** *** The transaction-scoped interface and the flag *)

Lemma transactional_loop_flag tx t cur w :
  transactions w !! tx = Some t ->
  transactional_loop tx cur w =
    match rows cur with
    | row :: rest =>
        if aborted t
        then (Raised (TransactionAborted InStreamGuard), TxCompleted)
        else (Yielded row,
              TxSuspendedYield tx {| rows := rest; failure := failure cur |})
    | [] =>
        (match failure cur with
         | Some msg => Raised (Thrown ByDriver msg)
         | None => Finished
         end, TxCompleted)
    end.
Proof.
  intros Ht. unfold transactional_loop. rewrite Ht.
  destruct (rows cur); [|done]. by destruct (failure cur).
Qed.

(** One step of a transaction-scoped generator, in full. *)
Lemma transactional_next_run s tx t w :
  stream_transaction s = Some tx ->
  transactions w !! tx = Some t ->
  transactional_next env s w =
    (transactional_loop tx (driver_has_left env s w) w,
     match s with
     | TxSuspendedStart _ q => emit (EvQueryStream (connection t) q) w
     | _ => w
     end).
Proof.
  intros Hs Ht. destruct s as [tx' q|tx' cur|]; simplify_eq/=; [|done].
  rewrite Ht. simpl.
  by rewrite !(transactional_loop_flag tx t) by done.
Qed.

(** C9.  A step of a transaction-scoped stream adds no acquire and no
    release to the trace: at most the dispatch of its query, when it has
    not started.  It takes the next row from the driver and reads the
    flag of its transaction before it yields: with the flag set and a row
    at hand it raises "Transaction aborted" and ends, whether at its first
    row or in the middle of the rows; with the flag clear it yields that
    row.  With the flag set it yields nothing.  Making the stream adds
    the audit of its query to the trace, and closing it adds nothing. *)
Theorem transactional_stream_checks_flag s tx t w :
  stream_transaction s = Some tx ->
  transactions w !! tx = Some t ->
  let '(r, s1, w1) := transactional_next env s w in
  (exists added, trace w1 = trace w ++ added /\
                 count is_pool_event added = 0 /\ length added <= 1) /\
  match rows (driver_has_left env s w) with
  | row :: rest =>
      if aborted t
      then r = Raised (TransactionAborted InStreamGuard) /\ s1 = TxCompleted /\
           message (TransactionAborted InStreamGuard) = "Transaction aborted"
      else r = Yielded row /\
           s1 = TxSuspendedYield tx
                  {| rows := rest;
                     failure := failure (driver_has_left env s w) |}
  | [] => is_yield r = false /\ s1 = TxCompleted
  end /\
  (aborted t = true -> is_yield r = false) /\
  (forall q, trace (snd (Transaction_queryStream env tx q w))
             = trace w ++ [EvAudit (format q)]) /\
  transactional_return s w = (Finished, TxCompleted, w).
Proof.
  intros Hs Ht. rewrite (transactional_next_run s tx t w Hs Ht).
  assert (forall q, trace (snd (Transaction_queryStream env tx q w))
                    = trace w ++ [EvAudit (format q)]) as Hcall.
  { intros q. rewrite Transaction_queryStream_cases, Ht.
    by destruct (audit_throws env (trace w) q). }
  rewrite (transactional_loop_flag tx t _ w Ht).
  assert (exists added,
             trace (match s with
                    | TxSuspendedStart _ q =>
                        emit (EvQueryStream (connection t) q) w
                    | _ => w
                    end) = trace w ++ added /\
             count is_pool_event added = 0 /\ length added <= 1) as Htrace.
  { destruct s as [tx' q|tx' cur|].
    - exists [EvQueryStream (connection t) q].
      split; [done|]. split; [done|]. simpl. lia.
    - exists []. rewrite app_nil_r. split; [done|]. split; [done|]. simpl. lia.
    - exists []. rewrite app_nil_r. split; [done|]. split; [done|]. simpl. lia. }
  destruct (rows (driver_has_left env s w)) as [|row rest].
  - by destruct (failure _).
  - by destruct (aborted t).
Qed.


(** *** Audits and dispatches *)

Lemma audited_app tr1 tr2 : audited (tr1 ++ tr2) = audited tr1 ++ audited tr2.
Proof. apply omap_app. Qed.

Lemma dispatched_app tr1 tr2 :
  dispatched (tr1 ++ tr2) = dispatched tr1 ++ dispatched tr2.
Proof. apply omap_app. Qed.

Lemma transactional_loop_started tx cur w :
  tx_has_started (snd (transactional_loop tx cur w)) = true.
Proof.
  unfold transactional_loop. destruct (rows cur).
  - by destruct (failure cur).
  - destruct (transactions w !! tx) as [t|]; [|done]. by destruct (aborted t).
Qed.

(** A call on a transaction-scoped generator audits nothing; it
    dispatches the query of the generator when that has not started and
    the call is [next], and nothing otherwise. *)
Lemma tx_pull_dispatch p s w :
  let '(_, s1, w1) := tx_pull env p s w in
  tx_has_started s1 = true /\
  audited (trace w1) = audited (trace w) /\
  match s with
  | TxSuspendedStart _ q =>
      dispatched (trace w1) = dispatched (trace w) \/
      dispatched (trace w1) = dispatched (trace w) ++ [q]
  | _ => dispatched (trace w1) = dispatched (trace w)
  end.
Proof.
  destruct p, s as [tx q|tx cur|]; simpl; try by repeat split; auto.
  - destruct (transactions w !! tx) as [t|]; simpl; [|by repeat split; auto].
    pose proof (transactional_loop_started tx
                  (driver_queryStream env (trace w) (connection t) q)
                  (emit (EvQueryStream (connection t) q) w)) as Hloop.
    destruct (transactional_loop _ _ _) as [r s1]. simpl in *.
    split; [done|]. rewrite audited_app, dispatched_app. simpl.
    split; [by rewrite app_nil_r|by right].
  - pose proof (transactional_loop_started tx cur w) as Hloop.
    by destruct (transactional_loop _ _ _) as [r s1].
Qed.

Lemma tx_consume_dispatch script s w :
  let w1 := snd (tx_consume env script s w) in
  audited (trace w1) = audited (trace w) /\
  match s with
  | TxSuspendedStart _ q =>
      dispatched (trace w1) = dispatched (trace w) \/
      dispatched (trace w1) = dispatched (trace w) ++ [q]
  | _ => dispatched (trace w1) = dispatched (trace w)
  end.
Proof.
  revert s w. induction script as [|p script IH]; intros s w.
  { simpl. split; [done|]. destruct s; auto. }
  simpl. pose proof (tx_pull_dispatch p s w) as Hp.
  destruct (tx_pull env p s w) as [[r s1] w1].
  destruct Hp as (Hstarted & Haud & Hdisp).
  specialize (IH s1 w1). simpl in IH. destruct IH as [IHa IHd].
  split; [congruence|].
  destruct s1 as [tx1 q1|tx1 cur1|]; [done| |];
    rewrite IHd; destruct s as [tx q|tx cur|]; auto.
Qed.

(** The same for a pool-level generator.  [dispatch_step] relates a
    generator and its store before and after something happened to it:
    nothing was audited, and either nothing was dispatched, or the query
    the generator had still to send was dispatched and it has none to
    send any more. *)
Lemma dispatch_step_refl s w : dispatch_step s w s w.
Proof. split; [done|]. left. split; [done|by right]. Qed.

Lemma dispatch_step_trans s w s1 w1 s2 w2 :
  dispatch_step s w s1 w1 -> dispatch_step s1 w1 s2 w2 ->
  dispatch_step s w s2 w2.
Proof.
  intros [Ha1 H1] [Ha2 H2]. split; [congruence|].
  destruct H1 as [[Hd1 Hs1]|(q & Hq & Hs1 & Hd1)],
           H2 as [[Hd2 Hs2]|(q' & Hq' & Hs2 & Hd2)].
  - left. split; [congruence|].
    destruct Hs2 as [?|Hs2]; [by left|]. rewrite Hs2. exact Hs1.
  - right. exists q'. split; [|split; [done|congruence]].
    destruct Hs1 as [Hs1|Hs1]; congruence.
  - right. exists q. split; [done|]. split; [|congruence].
    destruct Hs2 as [?|Hs2]; congruence.
  - congruence.
Qed.

Lemma dispatch_step_emit s s1 w ev :
  is_audit ev = false -> is_dispatch ev = false ->
  to_dispatch s1 = None \/ to_dispatch s1 = to_dispatch s ->
  dispatch_step s w s1 (emit ev w).
Proof.
  intros Ha Hd Hs. unfold dispatch_step.
  rewrite trace_emit, audited_app, dispatched_app.
  assert (audited [ev] = [] /\ dispatched [ev] = []) as [-> ->].
  { by destruct ev. }
  rewrite !app_nil_r. split; [done|]. by left.
Qed.

Lemma leave_try_dispatch s pc r w :
  let '(_, s1, w1) := leave_try pc r w in dispatch_step s w s1 w1.
Proof. simpl. apply dispatch_step_emit; auto. Qed.

Lemma pool_loop_dispatch s pc cur w :
  let '(_, s1, w1) := pool_loop pc cur w in dispatch_step s w s1 w1.
Proof.
  unfold pool_loop. destruct (rows cur).
  - destruct (failure cur); apply leave_try_dispatch.
  - split; [done|]. left. split; [done|by left].
Qed.

Lemma first_next_dispatch pc q w :
  let '(_, s1, w1) := queryStream_next env (SuspendedStart (Granted pc) q) w in
  to_dispatch s1 = None /\
  audited (trace w1) = audited (trace w) /\
  dispatched (trace w1) = dispatched (trace w) ++ [q].
Proof.
  simpl.
  pose proof (pool_loop_dispatch Completed pc
                (driver_queryStream env (trace w) (pool_conn pc) q)
                (emit (EvQueryStream (pool_conn pc) q) w)) as H.
  destruct (pool_loop _ _ _) as [[r s1] w1].
  destruct H as [Ha [[Hd Hs]|(q' & Hq' & _)]]; [|done].
  rewrite Ha, Hd, trace_emit, audited_app, dispatched_app. simpl.
  rewrite app_nil_r. split; [|done]. by destruct Hs.
Qed.

Lemma pull_dispatch p s w :
  let '(_, s1, w1) := pull env p s w in dispatch_step s w s1 w1.
Proof.
  destruct p, s as [[pc|msg|] q|q queued|pc cur| |];
    cbn [pull queryStream_next queryStream_return queryStream_throw];
    try apply dispatch_step_refl;
    try apply leave_try_dispatch;
    try apply pool_loop_dispatch;
    try (apply dispatch_step_emit; by auto);
    try (split; [done|]; left; split; [done|]; by auto).
  pose proof (first_next_dispatch pc q w) as H.
  cbn [queryStream_next] in H.
  destruct (connection_queryStream env (pool_conn pc) q w) as [cur w0].
  destruct (pool_loop pc cur w0) as [[r s1] w1].
  destruct H as (Hs & Ha & Hd). split; [done|]. right. by exists q.
Qed.

Lemma consume_dispatch script s w :
  let '(s1, w1) := consume env script s w in dispatch_step s w s1 w1.
Proof.
  revert s w. induction script as [|p script IH]; intros s w;
    [apply dispatch_step_refl|].
  simpl. pose proof (pull_dispatch p s w) as Hp.
  destruct (pull env p s w) as [[r s1] w1].
  specialize (IH s1 w1). destruct (consume env script s1 w1) as [s2 w2].
  by eapply dispatch_step_trans.
Qed.

Lemma answer_queued_dispatch queued s w :
  let '(_, s1, w1) := answer_queued env queued s w in dispatch_step s w s1 w1.
Proof.
  revert s w. induction queued as [|p queued IH]; intros s w;
    [apply dispatch_step_refl|].
  simpl. pose proof (pull_dispatch p s w) as Hp.
  destruct (pull env p s w) as [[r s1] w1].
  specialize (IH s1 w1).
  destruct (answer_queued env queued s1 w1) as [[rs s2] w2].
  by eapply dispatch_step_trans.
Qed.

Lemma lease_settles_dispatch a s w :
  let '(_, s1, w1) := lease_settles env a s w in dispatch_step s w s1 w1.
Proof.
  unfold lease_settles.
  destruct a as [pc|msg|]; [| |apply dispatch_step_refl];
    (destruct s as [[pc0|msg0|] q|q queued|pc0 cur| |];
     try apply dispatch_step_refl;
     try (apply dispatch_step_emit; by auto);
     try (split; [done|]; left; split; [done|]; by auto)).
  - pose proof (pull_dispatch Next (SuspendedStart (Granted pc) q)
                  (emit (EvAcquire pc) w)) as Hn.
    cbn [pull] in Hn.
    destruct (queryStream_next env _ _) as [[r s1] w1].
    pose proof (answer_queued_dispatch queued s1 w1) as Hq.
    destruct (answer_queued env queued s1 w1) as [[rs s2] w2].
    eapply dispatch_step_trans; [|exact Hq].
    eapply dispatch_step_trans; [|exact Hn].
    apply dispatch_step_emit; auto.
  - pose proof (answer_queued_dispatch queued Completed w) as Hq.
    cbn [queryStream_next].
    destruct (answer_queued env queued Completed w) as [[rs s2] w2].
    eapply dispatch_step_trans; [|exact Hq].
    split; [done|]. left. split; [done|]. by left.
Qed.

(** Whatever its consumer calls and whenever the pool settles its
    promise, a pool-level generator audits nothing and sends its query to
    the driver at most once. *)
Lemma observe_dispatch evs s w :
  let '(s1, w1) := observe env evs s w in dispatch_step s w s1 w1.
Proof.
  revert s w. induction evs as [|ev evs IH]; intros s w;
    [apply dispatch_step_refl|].
  simpl.
  assert (let '(s1, w1) := happen env ev s w in dispatch_step s w s1 w1)
    as Hev.
  { destruct ev as [p|a]; simpl.
    - pose proof (pull_dispatch p s w) as H.
      by destruct (pull env p s w) as [[r s1] w1].
    - pose proof (lease_settles_dispatch a s w) as H.
      by destruct (lease_settles env a s w) as [[rs s1] w1]. }
  destruct (happen env ev s w) as [s1 w1].
  specialize (IH s1 w1). destruct (observe env evs s1 w1) as [s2 w2].
  by eapply dispatch_step_trans.
Qed.

(** C2 (amended).  A call of [query] that is granted a lease, and a call
    of [query] on a transaction that is not aborted, run the audit hook
    once, before the query reaches the driver; the query then reaches the
    driver once when the hook returns, and not at all when it throws.  A
    call of [query] that the pool refuses or keeps waiting audits and
    dispatches nothing.  A call of [queryStream], on the pool or on a
    transaction, runs the hook once, in the call itself, and dispatches
    nothing; when the hook throws the call throws and there is no stream,
    and otherwise the stream sends its query to the driver at most once,
    whatever its consumer calls and whenever the pool settles the lease.
    [tx] sends its own [BEGIN], [COMMIT] and [ROLLBACK] straight to the
    raw connection: they reach the driver and no audit runs. *)
Theorem audit_runs_once_per_call :
  (forall q w,
      trace (snd (Database_query env q w)) =
        match pool_getConnection env (trace w) with
        | Granted pc =>
            trace w ++ [EvAcquire pc; EvAudit (format q)] ++
              match audit_throws env (trace w ++ [EvAcquire pc]) q with
              | None => [EvQuery (pool_conn pc) q; EvRelease pc]
              | Some _ => [EvRelease pc]
              end
        | _ => trace w
        end) /\
  (forall q w,
      let '(r, w1) := Database_queryStream env q w in
      audited (trace w1) = audited (trace w) ++ [format q] /\
      dispatched (trace w1) = dispatched (trace w) /\
      match r with
      | Throw e =>
          exists thrown, audit_throws env (trace w) q = Some thrown /\
                         e = Thrown ByObserver thrown
      | Normal s =>
          audit_throws env (trace w) q = None /\
          forall evs,
            let w2 := snd (observe env evs s w1) in
            audited (trace w2) = audited (trace w1) /\
            (dispatched (trace w2) = dispatched (trace w1) \/
             dispatched (trace w2) = dispatched (trace w1) ++ [q])
      end) /\
  (forall tx t q w,
      transactions w !! tx = Some t -> aborted t = false ->
      trace (snd (Transaction_query env tx q w)) =
        trace w ++ EvAudit (format q) ::
          match audit_throws env (trace w) q with
          | None => [EvQuery (connection t) q]
          | Some _ => []
          end) /\
  (forall tx t q w script,
      transactions w !! tx = Some t ->
      let '(r, w1) := Transaction_queryStream env tx q w in
      trace w1 = trace w ++ [EvAudit (format q)] /\
      match r with
      | Throw e =>
          exists thrown, audit_throws env (trace w) q = Some thrown /\
                         e = Thrown ByObserver thrown
      | Normal sid =>
          audit_throws env (trace w) q = None /\
          streams w1 !! sid = Some (TxSuspendedStart tx q) /\
          let w2 := snd (tx_consume env script (TxSuspendedStart tx q) w1) in
          audited (trace w2) = audited (trace w1) /\
          (dispatched (trace w2) = dispatched (trace w1) \/
           dispatched (trace w2) = dispatched (trace w1) ++ [q])
      end) /\
  (forall pc w,
      trace (snd (tx_before_await env pc w)) =
        trace w ++ [EvQuery (pool_conn pc) BEGIN]) /\
  (forall T pc (raced : Completion T) p w,
      let w1 := run_world (tx_resume env pc raced p w) in
      audited (trace w1) = audited (trace w) /\
      (dispatched (trace w1) = dispatched (trace w) ++ [COMMIT] \/
       dispatched (trace w1) = dispatched (trace w) ++ [COMMIT; ROLLBACK] \/
       dispatched (trace w1) = dispatched (trace w) ++ [ROLLBACK])).
Proof.
  split; [|split; [|split; [|split; [|split]]]].
  - intros q w. unfold Database_query, getConnection.
    destruct (pool_getConnection env (trace w)) as [pc|msg|]; [|done|done].
    unfold try_finally, bind, onQuery, release, ret. rewrite trace_emit.
    destruct (audit_throws env _ q) as [thrown|]; [flatten_world|].
    rewrite connection_query_run.
    destruct (driver_query _ _ _ _); flatten_world.
  - intros q w. unfold Database_queryStream, onQuery.
    destruct (audit_throws env (trace w) q) as [thrown|] eqn:Hhook.
    { rewrite trace_emit, audited_app, dispatched_app. simpl.
      rewrite app_nil_r. split; [done|]. split; [done|]. by exists thrown. }
    destruct (getConnection env (emit (EvAudit (format q)) w)) as [a w1]
      eqn:Hget.
    assert (audited (trace w1) = audited (trace w) ++ [format q] /\
            dispatched (trace w1) = dispatched (trace w)) as [Ha Hd].
    { unfold getConnection in Hget.
      destruct (pool_getConnection env _) as [pc|msg|];
        injection Hget as <- <-; rewrite ?trace_emit;
        rewrite ?audited_app, ?dispatched_app; simpl;
        by rewrite ?app_nil_r. }
    split; [done|]. split; [done|]. split; [done|]. intros evs.
    pose proof (observe_dispatch evs (SuspendedStart a q) w1) as H.
    destruct (observe env evs (SuspendedStart a q) w1) as [s2 w2].
    destruct H as [Ha2 [[Hd2 _]|(q' & [= <-] & _ & Hd2)]]; simpl; auto.
  - intros tx t q w Ht Hflag. rewrite Transaction_query_cases, Ht, Hflag.
    destruct (audit_throws env (trace w) q); flatten_world.
  - intros tx t q w script Ht. rewrite Transaction_queryStream_cases, Ht.
    destruct (audit_throws env (trace w) q) as [thrown|] eqn:Hhook.
    { split; [done|]. by exists thrown. }
    split; [done|]. split; [done|].
    split; [by apply list_lookup_middle|].
    pose proof (tx_consume_dispatch script (TxSuspendedStart tx q)
                  (with_streams (streams w ++ [TxSuspendedStart tx q])
                                (emit (EvAudit (format q)) w))) as H.
    exact H.
  - intros pc w. rewrite tx_before_await_run.
    by destruct (driver_query _ _ _ _).
  - intros T pc raced p w. simpl. destruct raced as [v|e].
    + rewrite tx_resume_normal.
      destruct (driver_query _ _ _ _); simpl;
        rewrite !audited_app, !dispatched_app; simpl; rewrite ?app_nil_r;
        rewrite <- ?(assoc_L (++)); auto.
    + rewrite tx_resume_throw. simpl.
      rewrite !audited_app, !dispatched_app; simpl; rewrite ?app_nil_r; auto.
Qed.

(** *** Releasing the lease of a pool-level stream *)

Lemma is_release_of_refl pc : is_release_of pc (EvRelease pc) = true.
Proof. unfold is_release_of. by rewrite !Nat.eqb_refl. Qed.

Lemma consume_completed pc script w :
  let '(s1, w1) := consume env script Completed w in
  s1 = Completed /\
  count (is_release_of pc) (trace w1) = count (is_release_of pc) (trace w).
Proof.
  revert w. induction script as [|p script IH]; intros w; [done|].
  destruct p; simpl; apply IH.
Qed.

(** A generator suspended inside its [try] block releases its lease when
    it completes, by any way, and not before; a completed one releases
    nothing more. *)
Lemma consume_in_try pc cur script w :
  let '(s1, w1) := consume env script (SuspendedYield pc cur) w in
  count (is_release_of pc) (trace w1) =
    count (is_release_of pc) (trace w) + (if is_completed s1 then 1 else 0).
Proof.
  assert (forall r script0 w0,
             let '(_, s0, wl) := leave_try pc r w0 in
             let '(s1, w1) := consume env script0 s0 wl in
             count (is_release_of pc) (trace w1) =
               count (is_release_of pc) (trace w0)
               + (if is_completed s1 then 1 else 0)) as Hleave.
  { intros r script0 w0. simpl.
    pose proof (consume_completed pc script0 (emit (EvRelease pc) w0)) as H.
    destruct (consume env script0 Completed _) as [s1 w1].
    destruct H as [-> ->]. rewrite trace_emit, count_app.
    assert (count (is_release_of pc) [EvRelease pc] = 1) as ->; [|done].
    unfold count. cbn [List.filter]. by rewrite is_release_of_refl. }
  revert cur w. induction script as [|p script IH]; intros cur w.
  { simpl. lia. }
  destruct p; simpl; try apply (Hleave Finished).
  unfold pool_loop. destruct (rows cur) as [|row rest]; [|apply IH].
  destruct (failure cur); apply (Hleave Finished).
Qed.

(** The call of [queryStream], by what the hook and the pool do. *)
Lemma Database_queryStream_run q w :
  Database_queryStream env q w =
    match audit_throws env (trace w) q with
    | Some thrown =>
        (Throw (Thrown ByObserver thrown), emit (EvAudit (format q)) w)
    | None =>
        match pool_getConnection env (trace w ++ [EvAudit (format q)]) with
        | Granted pc =>
            (Normal (SuspendedStart (Granted pc) q),
             emit (EvAcquire pc) (emit (EvAudit (format q)) w))
        | a => (Normal (SuspendedStart a q), emit (EvAudit (format q)) w)
        end
    end.
Proof.
  unfold Database_queryStream, onQuery, getConnection.
  destruct (audit_throws env (trace w) q); [done|].
  rewrite trace_emit. by destruct (pool_getConnection env _).
Qed.

(** X1.  Once its first row has been asked for, a pool-level stream on a
    granted lease releases that lease exactly once, when it completes:
    at the end of the rows, on the driver's failure, on [return] and on
    [throw].  (When the observer throws there is no stream: the call has
    only audited, and no lease was asked for.) *)
Lemma queryStream_releases_once_when_started q w pc script :
  pool_getConnection env (trace w ++ [EvAudit (format q)]) = Granted pc ->
  match Database_queryStream env q w with
  | (Normal s, w1) =>
      let '(s2, w2) := consume env (Next :: script) s w1 in
      count (is_release_of pc) (trace w2) =
        count (is_release_of pc) (trace w) + (if is_completed s2 then 1 else 0)
  | (Throw e, w1) =>
      exists thrown, audit_throws env (trace w) q = Some thrown /\
                     e = Thrown ByObserver thrown /\
                     w1 = emit (EvAudit (format q)) w
  end.
Proof.
  intros Hpool. rewrite Database_queryStream_run.
  destruct (audit_throws env (trace w) q) as [thrown|]; [by exists thrown|].
  rewrite Hpool.
  cbn [consume pull queryStream_next connection_queryStream].
  set (w0 := emit (EvQueryStream (pool_conn pc) q)
               (emit (EvAcquire pc) (emit (EvAudit (format q)) w))).
  assert (count (is_release_of pc) (trace w0)
          = count (is_release_of pc) (trace w)) as Hbase.
  { unfold w0. rewrite !trace_emit, !count_app. simpl. unfold count. simpl.
    lia. }
  rewrite <- Hbase.
  generalize (driver_queryStream env
                (trace (emit (EvAcquire pc) (emit (EvAudit (format q)) w)))
                (pool_conn pc) q) as cur.
  generalize w0. clear. intros w0 cur.
  apply (consume_in_try pc cur (Next :: script) w0).
Qed.

(** *** Streams read by a loop *)

Lemma for_await_in_try pc rs f fuel w acc :
  length rs < fuel ->
  for_await env fuel (SuspendedYield pc {| rows := rs; failure := f |}) w acc
  = (Some (acc ++ rs, end_of {| rows := rs; failure := f |}),
     Completed, emit (EvRelease pc) w).
Proof.
  revert fuel acc. induction rs as [|row rest IH]; intros fuel acc Hfuel;
    (destruct fuel as [|fuel]; [simpl in Hfuel; lia|]).
  - simpl. unfold pool_loop, end_of. simpl. rewrite app_nil_r.
    by destruct f.
  - cbn [for_await queryStream_next]. unfold pool_loop. cbn [rows failure].
    rewrite IH by (simpl in Hfuel; lia).
    by rewrite <- (assoc_L (++)).
Qed.

Lemma for_await_start pc q fuel w acc :
  for_await env (S fuel) (SuspendedStart (Granted pc) q) w acc =
  for_await env (S fuel)
            (SuspendedYield pc (driver_queryStream env (trace w) (pool_conn pc) q))
            (emit (EvQueryStream (pool_conn pc) q) w) acc.
Proof. reflexivity. Qed.

(** X2.  The loop of the streaming test, on a granted lease: it gets the
    rows of the driver, all of them and in the driver's order, and ends as
    the driver's sequence ends (its end, or its failure after the rows
    before it); the query was audited, the lease taken, the query
    dispatched once and the lease released, in this order.  (When the
    observer throws there is no stream to loop over.) *)
Theorem for_await_yields_all_rows q w pc fuel :
  pool_getConnection env (trace w ++ [EvAudit (format q)]) = Granted pc ->
  let cur := driver_queryStream env
               (trace w ++ [EvAudit (format q); EvAcquire pc])
               (pool_conn pc) q in
  length (rows cur) < fuel ->
  match Database_queryStream env q w with
  | (Normal s, w1) =>
      for_await env fuel s w1 [] =
        (Some (rows cur, end_of cur), Completed,
         mkWorld (trace w ++ [EvAudit (format q); EvAcquire pc;
                              EvQueryStream (pool_conn pc) q; EvRelease pc])
                 (controllers w) (controller_of w) (transactions w)
                 (streams w))
  | (Throw e, w1) =>
      exists thrown, audit_throws env (trace w) q = Some thrown /\
                     e = Thrown ByObserver thrown /\
                     w1 = emit (EvAudit (format q)) w
  end.
Proof.
  intros Hpool cur Hfuel. destruct fuel as [|fuel]; [lia|].
  rewrite Database_queryStream_run.
  destruct (audit_throws env (trace w) q) as [thrown|]; [by exists thrown|].
  rewrite Hpool, for_await_start.
  rewrite !trace_emit, <- (assoc_L (++)). cbn [app]. fold cur.
  clearbody cur. destruct cur as [rs f].
  rewrite for_await_in_try by done. flatten_world.
Qed.

Lemma for_await_break_in_try pc rs f left w acc :
  for_await_break env left
                  (SuspendedYield pc {| rows := rs; failure := f |}) w acc
  = (acc ++ take (S left) rs,
     if decide (left < length rs) then Finished
     else end_of {| rows := rs; failure := f |},
     Completed, emit (EvRelease pc) w).
Proof.
  revert left acc. induction rs as [|row rest IH]; intros left acc.
  - destruct left; simpl; unfold pool_loop, end_of; simpl;
      rewrite app_nil_r; by destruct f.
  - destruct left as [|left].
    + cbn [for_await_break queryStream_next queryStream_return].
      unfold pool_loop. cbn [rows failure leave_try release].
      rewrite decide_True by (simpl; lia). simpl. by rewrite ?take_0.
    + cbn [for_await_break queryStream_next]. unfold pool_loop at 1.
      cbn [rows failure]. rewrite IH. rewrite <- (assoc_L (++)).
      cbn [take app length].
      destruct (decide (left < length rest));
        [rewrite decide_True by lia|rewrite decide_False by lia]; done.
Qed.

Lemma for_await_break_start pc q left w acc :
  for_await_break env left (SuspendedStart (Granted pc) q) w acc =
  for_await_break env left
            (SuspendedYield pc (driver_queryStream env (trace w) (pool_conn pc) q))
            (emit (EvQueryStream (pool_conn pc) q) w) acc.
Proof. by destruct left. Qed.

(** X3.  The same loop left by [break] at its [n]-th row, [n = S left]:
    it gets the first [n] rows of the driver, or all of them when there
    are fewer, and in both cases the lease is released, once, after the
    one dispatch.  (When the observer throws there is no stream.) *)
Theorem for_await_break_releases q w pc left :
  pool_getConnection env (trace w ++ [EvAudit (format q)]) = Granted pc ->
  let cur := driver_queryStream env
               (trace w ++ [EvAudit (format q); EvAcquire pc])
               (pool_conn pc) q in
  match Database_queryStream env q w with
  | (Normal s, w1) =>
      for_await_break env left s w1 [] =
        (take (S left) (rows cur),
         if decide (left < length (rows cur)) then Finished else end_of cur,
         Completed,
         mkWorld (trace w ++ [EvAudit (format q); EvAcquire pc;
                              EvQueryStream (pool_conn pc) q; EvRelease pc])
                 (controllers w) (controller_of w) (transactions w)
                 (streams w))
  | (Throw e, w1) =>
      exists thrown, audit_throws env (trace w) q = Some thrown /\
                     e = Thrown ByObserver thrown /\
                     w1 = emit (EvAudit (format q)) w
  end.
Proof.
  intros Hpool cur.
  rewrite Database_queryStream_run.
  destruct (audit_throws env (trace w) q) as [thrown|]; [by exists thrown|].
  rewrite Hpool, for_await_break_start.
  rewrite !trace_emit, <- (assoc_L (++)). cbn [app]. fold cur.
  clearbody cur. destruct cur as [rs f].
  rewrite for_await_break_in_try. flatten_world.
Qed.

Lemma tx_for_await_mid tx t rs f fuel w acc :
  transactions w !! tx = Some t -> aborted t = false ->
  length rs < fuel ->
  tx_for_await env fuel (TxSuspendedYield tx {| rows := rs; failure := f |})
               w acc
  = (Some (acc ++ rs, end_of {| rows := rs; failure := f |}), TxCompleted, w).
Proof.
  intros Ht Hflag.
  revert fuel acc. induction rs as [|row rest IH]; intros fuel acc Hfuel;
    (destruct fuel as [|fuel]; [simpl in Hfuel; lia|]).
  - simpl. unfold transactional_loop, end_of. simpl. rewrite app_nil_r.
    by destruct f.
  - cbn [tx_for_await transactional_next]. unfold transactional_loop.
    cbn [rows failure]. rewrite Ht, Hflag.
    rewrite IH by (simpl in Hfuel; lia).
    by rewrite <- (assoc_L (++)).
Qed.

Lemma tx_for_await_start tx t q fuel w acc :
  transactions w !! tx = Some t ->
  tx_for_await env (S fuel) (TxSuspendedStart tx q) w acc =
  tx_for_await env (S fuel)
               (TxSuspendedYield tx
                  (driver_queryStream env (trace w) (connection t) q))
               (emit (EvQueryStream (connection t) q) w) acc.
Proof. intros Ht. simpl. by rewrite Ht. Qed.

(** X4.  A transaction-scoped stream read to its end while the flag of
    its transaction is clear gives the rows of the driver, all of them
    and in order, from one dispatch on the connection of the transaction;
    nothing else is added to the trace. *)
Theorem tx_for_await_yields_all_rows tx t q w fuel :
  transactions w !! tx = Some t ->
  aborted t = false ->
  let cur := driver_queryStream env (trace w) (connection t) q in
  length (rows cur) < fuel ->
  tx_for_await env fuel (TxSuspendedStart tx q) w [] =
    (Some (rows cur, end_of cur), TxCompleted,
     emit (EvQueryStream (connection t) q) w).
Proof.
  intros Ht Hflag cur Hfuel. destruct fuel as [|fuel]; [lia|].
  rewrite (tx_for_await_start tx t q fuel w [] Ht). fold cur.
  clearbody cur. destruct cur as [rs f].
  by rewrite (tx_for_await_mid tx t rs f (S fuel)
                (emit (EvQueryStream (connection t) q) w) [] Ht Hflag Hfuel).
Qed.

(** *** The trace of a transaction *)

Lemma turn_shape {T} pc tx ctrl t (st : TxRun T) :
  lease_armed pc ctrl (run_world st) ->
  run_result st = Unsettled ->
  exists evs,
    trace (run_world (turn env pc tx ctrl t st))
    = trace (run_world st) ++ evs /\
    if is_settled (run_result (turn env pc tx ctrl t st))
    then settling_events pc ctrl (run_result (turn env pc tx ctrl t st)) evs
    else forallb is_call evs = true.
Proof.
  intros Harmed Hr. destruct t.
  - unfold turn. rewrite Hr.
    pose proof (fn_step_calls tx (run_fn st) (run_world st)) as Hcalls.
    destruct (run_fn st) eqn:Hp;
      try (destruct (fn_step env tx _ (run_world st)) as [p1 w1];
           destruct Hcalls as (calls & Htr & Hc); by exists calls).
    + rewrite tx_resume_normal.
      destruct (driver_query _ _ _ _); eexists; (split; [flatten_world|]);
        simpl; auto.
    + rewrite tx_resume_throw. eexists. split; [flatten_world|].
      simpl. auto.
  - rewrite turn_timeout by done. eexists. split; [reflexivity|].
    simpl. auto.
Qed.

Lemma run_turns_shape {T} pc tx ctrl sched (st : TxRun T) :
  lease_armed pc ctrl (run_world st) ->
  run_result st = Unsettled ->
  exists calls evs later,
    trace (run_world (run_turns env pc tx ctrl sched st))
    = trace (run_world st) ++ calls ++ evs ++ later /\
    forallb is_call calls = true /\ forallb is_call later = true /\
    settling_events pc ctrl (run_result (run_turns env pc tx ctrl sched st))
                    evs /\
    (run_result (run_turns env pc tx ctrl sched st) = Unsettled -> later = []).
Proof.
  revert st. induction sched as [|t sched IH]; intros st Harmed Hr.
  { exists [], [], []. simpl. rewrite Hr, app_nil_r. by repeat split. }
  simpl. destruct (turn_shape pc tx ctrl t st Harmed Hr) as (evs1 & Htr1 & H1).
  destruct (run_result (turn env pc tx ctrl t st)) eqn:Hr1.
  - destruct (run_turns_after_settled pc tx ctrl sched
                (turn env pc tx ctrl t st)) as (later & Hl & Hlc);
      [by rewrite Hr1|].
    exists [], evs1, later. rewrite run_turns_settled by (by rewrite Hr1).
    rewrite Hl, Htr1, Hr1. simpl in *.
    rewrite <- (assoc_L (++)). by repeat split.
  - destruct (run_turns_after_settled pc tx ctrl sched
                (turn env pc tx ctrl t st)) as (later & Hl & Hlc);
      [by rewrite Hr1|].
    exists [], evs1, later. rewrite run_turns_settled by (by rewrite Hr1).
    rewrite Hl, Htr1, Hr1. simpl in *.
    rewrite <- (assoc_L (++)). by repeat split.
  - destruct (turn_armed pc tx ctrl t st Harmed Hr1) as [_ Harmed1].
    destruct (IH _ Harmed1 Hr1) as (calls & evs & later & Htr & Hc & Hl & Hs & Hu).
    exists (evs1 ++ calls), evs, later. rewrite Htr, Htr1. simpl in H1.
    rewrite forallb_app, H1, Hc, <- !(assoc_L (++)). by repeat split.
Qed.

Lemma fn_calls_app c calls1 calls2 :
  fn_calls c calls1 -> fn_calls c calls2 -> fn_calls c (calls1 ++ calls2).
Proof. intros H1 H2. induction H1; simpl; [done|by constructor..]. Qed.

Lemma fn_step_fn_calls {T} tx t (p : TxProg T) w :
  transactions w !! tx = Some t ->
  exists calls,
    trace (snd (fn_step env tx p w)) = trace w ++ calls /\
    fn_calls (connection t) calls.
Proof.
  intros Ht.
  assert (exists calls, trace w = trace w ++ calls /\
                        fn_calls (connection t) calls) as Hnone.
  { exists []. rewrite app_nil_r. split; [done|constructor]. }
  destruct p as [v|e| |q k|q k|sid k|sid k]; cbn [fn_step]; try exact Hnone.
  - rewrite Transaction_query_cases, Ht.
    destruct (aborted t); [exact Hnone|].
    destruct (audit_throws env (trace w) q).
    + exists [EvAudit (format q)]. split; [done|]. by repeat constructor.
    + exists [EvAudit (format q); EvQuery (connection t) q].
      split; [flatten_world|]. by repeat constructor.
  - rewrite Transaction_queryStream_cases, Ht.
    destruct (audit_throws env (trace w) q);
      (exists [EvAudit (format q)]; split; [done|]; by repeat constructor).
  - unfold transactionalQueryStream_next, on_stream.
    destruct (streams w !! sid) as [s|]; [|exact Hnone].
    destruct s as [tx' q|tx' cur|]; cbn [transactional_next].
    + destruct (transactions w !! tx') as [t'|]; [|exact Hnone].
      cbn [connection_queryStream].
      destruct (transactional_loop _ _ _) as [r s1]. cbn [fst snd].
      exists [EvQueryStream (connection t') q]. split; [done|].
      by repeat constructor.
    + by destruct (transactional_loop _ _ _) as [r s1].
    + exact Hnone.
  - unfold transactionalQueryStream_return, on_stream.
    by destruct (streams w !! sid) as [s|].
Qed.

Lemma turn_after_settled_fn {T} pc tx t0 ctrl t (st : TxRun T) :
  transactions (run_world st) !! tx = Some t0 ->
  run_result st <> Unsettled ->
  exists calls,
    trace (run_world (turn env pc tx ctrl t st))
    = trace (run_world st) ++ calls /\
    fn_calls (connection t0) calls.
Proof.
  intros Ht Hs. unfold turn.
  pose proof (fn_step_fn_calls tx t0 (run_fn st) (run_world st) Ht) as H.
  assert (exists calls,
             trace (run_world st) = trace (run_world st) ++ calls /\
             fn_calls (connection t0) calls) as Hnone.
  { exists []. rewrite app_nil_r. split; [done|constructor]. }
  destruct (run_result st) eqn:E; [| |done]; destruct t; try exact Hnone;
    by destruct (fn_step env tx (run_fn st) (run_world st)).
Qed.

Lemma run_turns_after_settled_fn {T} pc tx t0 ctrl sched (st : TxRun T) :
  transactions (run_world st) !! tx = Some t0 ->
  run_result st <> Unsettled ->
  exists calls,
    trace (run_world (run_turns env pc tx ctrl sched st))
    = trace (run_world st) ++ calls /\
    fn_calls (connection t0) calls.
Proof.
  revert st. induction sched as [|t sched IH]; intros st Ht Hs.
  { exists []. rewrite app_nil_r. split; [done|constructor]. }
  simpl.
  destruct (turn_after_settled_fn pc tx t0 ctrl t st Ht Hs)
    as (calls1 & Htr1 & Hc1).
  destruct (IH (turn env pc tx ctrl t st)) as (calls2 & Htr2 & Hc2).
  { by rewrite turn_transactions. }
  { by rewrite turn_settled. }
  exists (calls1 ++ calls2). split; [|by apply fn_calls_app].
  by rewrite Htr2, Htr1, (assoc_L (++)).
Qed.

Lemma turn_shape_fn {T} pc tx t0 ctrl t (st : TxRun T) :
  transactions (run_world st) !! tx = Some t0 ->
  lease_armed pc ctrl (run_world st) ->
  run_result st = Unsettled ->
  exists evs,
    trace (run_world (turn env pc tx ctrl t st))
    = trace (run_world st) ++ evs /\
    if is_settled (run_result (turn env pc tx ctrl t st))
    then settling_events pc ctrl (run_result (turn env pc tx ctrl t st)) evs
    else fn_calls (connection t0) evs.
Proof.
  intros Ht Harmed Hr. destruct t.
  - unfold turn. rewrite Hr.
    pose proof (fn_step_fn_calls tx t0 (run_fn st) (run_world st) Ht)
      as Hcalls.
    destruct (run_fn st) eqn:Hp;
      try (destruct (fn_step env tx _ (run_world st)) as [p1 w1];
           destruct Hcalls as (calls & Htr & Hc); by exists calls).
    + rewrite tx_resume_normal.
      destruct (driver_query _ _ _ _); eexists; (split; [flatten_world|]);
        simpl; auto.
    + rewrite tx_resume_throw. eexists. split; [flatten_world|].
      simpl. auto.
  - rewrite turn_timeout by done. eexists. split; [reflexivity|].
    simpl. auto.
Qed.

Lemma run_turns_shape_fn {T} pc tx t0 ctrl sched (st : TxRun T) :
  transactions (run_world st) !! tx = Some t0 ->
  lease_armed pc ctrl (run_world st) ->
  run_result st = Unsettled ->
  exists calls evs later,
    trace (run_world (run_turns env pc tx ctrl sched st))
    = trace (run_world st) ++ calls ++ evs ++ later /\
    fn_calls (connection t0) calls /\ fn_calls (connection t0) later /\
    settling_events pc ctrl (run_result (run_turns env pc tx ctrl sched st))
                    evs /\
    (run_result (run_turns env pc tx ctrl sched st) = Unsettled -> later = []).
Proof.
  revert st. induction sched as [|t sched IH]; intros st Ht Harmed Hr.
  { exists [], [], []. simpl. rewrite Hr, app_nil_r.
    split; [done|]. split; [constructor|]. split; [constructor|]. by split. }
  simpl.
  destruct (turn_shape_fn pc tx t0 ctrl t st Ht Harmed Hr)
    as (evs1 & Htr1 & H1).
  assert (transactions (run_world (turn env pc tx ctrl t st)) !! tx = Some t0)
    as Ht1 by (by rewrite turn_transactions).
  destruct (run_result (turn env pc tx ctrl t st)) eqn:Hr1.
  - destruct (run_turns_after_settled_fn pc tx t0 ctrl sched
                (turn env pc tx ctrl t st) Ht1) as (later & Hl & Hlc);
      [by rewrite Hr1|].
    exists [], evs1, later. rewrite run_turns_settled by (by rewrite Hr1).
    rewrite Hl, Htr1, Hr1. simpl in *.
    rewrite <- (assoc_L (++)).
    split; [done|]. split; [constructor|]. by repeat split.
  - destruct (run_turns_after_settled_fn pc tx t0 ctrl sched
                (turn env pc tx ctrl t st) Ht1) as (later & Hl & Hlc);
      [by rewrite Hr1|].
    exists [], evs1, later. rewrite run_turns_settled by (by rewrite Hr1).
    rewrite Hl, Htr1, Hr1. simpl in *.
    rewrite <- (assoc_L (++)).
    split; [done|]. split; [constructor|]. by repeat split.
  - destruct (turn_armed pc tx ctrl t st Harmed Hr1) as [_ Harmed1].
    destruct (IH _ Ht1 Harmed1 Hr1)
      as (calls & evs & later & Htr & Hc & Hl & Hs & Hu).
    exists (evs1 ++ calls), evs, later. rewrite Htr, Htr1. simpl in H1.
    rewrite <- !(assoc_L (++)).
    split; [done|]. split; [by apply fn_calls_app|]. by repeat split.
Qed.

Lemma world_at_await_transaction pc w :
  transactions (world_at_await pc w) !! length (transactions w)
  = Some {| connection := pool_conn pc; aborted := false |}.
Proof. simpl. rewrite lookup_app_r by done. by rewrite Nat.sub_diag. Qed.

(** X6.  The trace of [tx] on a granted lease whose [BEGIN] was accepted:
    [BEGIN] comes first, with no audit; then what the calls of the
    function on the interface add while [tx] is in flight; then, when [tx]
    settles, [COMMIT] and the release for a fulfilment, and for a
    rejection one of three endings, each closed by [ROLLBACK] and the
    release; after that, only what calls of the function still add.  What
    the function's calls add is, call by call, an audit followed by its
    statement on the leased connection, an audit alone, or the dispatch of
    a stream: so every [connection.query] of the function comes right
    after its own audit, and none before [BEGIN]; a [connection.query]
    that does not follow its own audit is one of [tx] itself, which sends
    [BEGIN] once and [COMMIT] and [ROLLBACK] at most once each. *)
Theorem tx_trace_shape {T} (fn : TxProg T) sched w pc rs :
  pool_getConnection env (trace w) = Granted pc ->
  driver_query env (trace w ++ [EvAcquire pc]) (pool_conn pc) BEGIN = inr rs ->
  let r := Database_tx env fn sched w in
  exists calls evs later,
    trace (run_world r) =
      trace w ++ [EvAcquire pc; EvQuery (pool_conn pc) BEGIN]
        ++ calls ++ evs ++ later /\
    fn_calls (pool_conn pc) calls /\ fn_calls (pool_conn pc) later /\
    settling_events pc (length (controllers w)) (run_result r) evs /\
    (run_result r = Unsettled -> later = []).
Proof.
  intros Hpool Hbegin r. unfold r.
  rewrite (Database_tx_granted fn sched w pc Hpool), Hbegin.
  destruct (run_turns_shape_fn pc (length (transactions w)) _
              (length (controllers w)) sched
              (mkRun (world_at_await pc w) fn Unsettled)
              (world_at_await_transaction pc w)
              (world_at_await_armed pc w) eq_refl)
    as (calls & evs & later & Htr & Hc & Hl & Hs & Hu).
  exists calls, evs, later. rewrite Htr. simpl.
  rewrite <- !(assoc_L (++)). by repeat split.
Qed.

Lemma count_calls pc calls :
  forallb is_call calls = true -> count (is_release_of pc) calls = 0.
Proof.
  induction calls as [|ev calls IH]; [done|].
  simpl. intros [Hev Hrest]%andb_prop.
  change (ev :: calls) with ([ev] ++ calls). rewrite count_app, IH by done.
  by destruct ev.
Qed.

Lemma count_settling {T} pc ctrl (r : Settlement T) evs :
  settling_events pc ctrl r evs ->
  count (is_release_of pc) evs = if is_settled r then 1 else 0.
Proof.
  destruct r; simpl; [intros ->|intros [->|[->| ->]]|by intros ->];
    unfold count; simpl; by rewrite !Nat.eqb_refl.
Qed.

(** X5.  On a granted lease [tx] releases the lease exactly once when it
    settles, by any way, a refused [BEGIN] included, and not at all while
    it is in flight; whatever the function does afterwards releases
    nothing. *)
Theorem tx_releases_lease_once {T} (fn : TxProg T) sched w pc :
  pool_getConnection env (trace w) = Granted pc ->
  let r := Database_tx env fn sched w in
  count (is_release_of pc) (trace (run_world r)) =
    count (is_release_of pc) (trace w)
    + (if is_settled (run_result r) then 1 else 0).
Proof.
  intros Hpool r.
  destruct (driver_query env (trace w ++ [EvAcquire pc]) (pool_conn pc) BEGIN)
    as [msg|rs] eqn:Hbegin.
  - unfold r. rewrite (Database_tx_granted fn sched w pc Hpool), Hbegin.
    simpl. rewrite count_app.
    assert (count (is_release_of pc)
              [EvAcquire pc; EvQuery (pool_conn pc) BEGIN;
               EvQuery (pool_conn pc) ROLLBACK; EvRelease pc] = 1) as ->;
      [|done].
    unfold count. simpl. by rewrite !Nat.eqb_refl.
  - unfold r. rewrite (Database_tx_granted fn sched w pc Hpool), Hbegin.
    destruct (run_turns_shape pc (length (transactions w))
                (length (controllers w)) sched
                (mkRun (world_at_await pc w) fn Unsettled)
                (world_at_await_armed pc w) eq_refl)
      as (calls & evs & later & Htr & Hc & Hl & Hs & _).
    rewrite Htr, !count_app.
    rewrite (count_calls pc calls Hc), (count_calls pc later Hl).
    rewrite (count_settling pc _ _ evs Hs). simpl.
    rewrite count_app.
    assert (count (is_release_of pc)
              [EvAcquire pc; EvQuery (pool_conn pc) BEGIN] = 0) as ->
      by done.
    lia.
Qed.

(** *** Queries of a transaction *)

Lemma Transaction_query_run tx t q w :
  transactions w !! tx = Some t -> aborted t = false ->
  Transaction_query env tx q w =
    match audit_throws env (trace w) q with
    | Some thrown =>
        (Throw (Thrown ByObserver thrown), emit (EvAudit (format q)) w)
    | None =>
        (match driver_query env (trace w ++ [EvAudit (format q)])
                 (connection t) q
         with
         | inr rs => Normal rs
         | inl msg => Throw (Thrown ByDriver msg)
         end,
         emit (EvQuery (connection t) q) (emit (EvAudit (format q)) w))
    end.
Proof.
  intros Ht Hflag. by rewrite Transaction_query_cases, Ht, Hflag.
Qed.

Lemma Database_tx_begun {T} (fn : TxProg T) sched more w pc rs :
  pool_getConnection env (trace w) = Granted pc ->
  driver_query env (trace w ++ [EvAcquire pc]) (pool_conn pc) BEGIN = inr rs ->
  Database_tx env fn (sched ++ more) w =
    run_turns env pc (length (transactions w)) (length (controllers w)) more
              (Database_tx env fn sched w) /\
  transactions (run_world (Database_tx env fn sched w))
    !! length (transactions w)
  = Some {| connection := pool_conn pc; aborted := false |}.
Proof.
  intros Hpool Hbegin.
  rewrite !(Database_tx_granted fn _ w pc Hpool), Hbegin. split.
  - apply run_turns_app.
  - rewrite run_turns_transactions. apply world_at_await_transaction.
Qed.

(** X11.  The transaction-scoped interface stays open after [tx] has
    settled: a [query] that the function makes afterwards, after the
    commit, the rollback or the abort, is still audited and, when the
    observer returns, sent to the connection of the transaction, whose
    lease has been released; the function gets the driver's answer, or
    what the observer threw, and the outcome of [tx] is as it was. *)
Theorem settled_tx_still_queries {T} (fn : TxProg T) sched w pc rs q k :
  pool_getConnection env (trace w) = Granted pc ->
  driver_query env (trace w ++ [EvAcquire pc]) (pool_conn pc) BEGIN = inr rs ->
  is_settled (run_result (Database_tx env fn sched w)) = true ->
  run_fn (Database_tx env fn sched w) = CallQuery q k ->
  let before := Database_tx env fn sched w in
  let after := Database_tx env fn (sched ++ [RunFn]) w in
  trace (run_world after) =
    trace (run_world before)
      ++ EvAudit (format q) ::
         match audit_throws env (trace (run_world before)) q with
         | None => [EvQuery (pool_conn pc) q]
         | Some _ => []
         end /\
  count (is_release_of pc) (trace (run_world before))
    = count (is_release_of pc) (trace w) + 1 /\
  run_result after = run_result before /\
  run_fn after =
    k (match audit_throws env (trace (run_world before)) q with
       | Some thrown => Throw (Thrown ByObserver thrown)
       | None =>
           match driver_query env
                   (trace (run_world before) ++ [EvAudit (format q)])
                   (pool_conn pc) q
           with
           | inr answer => Normal answer
           | inl msg => Throw (Thrown ByDriver msg)
           end
       end).
Proof.
  intros Hpool Hbegin Hsettled Hfn before after.
  destruct (Database_tx_begun fn sched [RunFn] w pc rs Hpool Hbegin)
    as [Hafter Htx].
  assert (count (is_release_of pc) (trace (run_world before))
          = count (is_release_of pc) (trace w) + 1) as Hcount.
  { unfold before. rewrite (Database_tx_granted fn sched w pc Hpool), Hbegin.
    destruct (run_turns_shape pc (length (transactions w))
                (length (controllers w)) sched
                (mkRun (world_at_await pc w) fn Unsettled)
                (world_at_await_armed pc w) eq_refl)
      as (calls & evs & later & Htr & Hc & Hl & Hs & _).
    rewrite (Database_tx_granted fn sched w pc Hpool), Hbegin in Hsettled.
    rewrite Htr, !count_app.
    rewrite (count_calls pc calls Hc), (count_calls pc later Hl).
    rewrite (count_settling pc _ _ evs Hs), Hsettled. simpl.
    rewrite count_app.
    assert (count (is_release_of pc)
              [EvAcquire pc; EvQuery (pool_conn pc) BEGIN] = 0) as -> by done.
    lia. }
  unfold after. rewrite Hafter. fold before. fold before in Hsettled, Hfn, Htx.
  simpl. unfold turn.
  destruct (run_result before) eqn:Hr; [| |done];
    rewrite Hfn; simpl;
    rewrite (Transaction_query_run _ _ q _ Htx eq_refl); simpl;
    (destruct (audit_throws env (trace (run_world before)) q); simpl;
     [done|by rewrite <- (assoc_L (++))]).
Qed.

Lemma run_turns_cons {T} pc tx ctrl t sched (st : TxRun T) :
  run_turns env pc tx ctrl (t :: sched) st
  = run_turns env pc tx ctrl sched (turn env pc tx ctrl t st).
Proof. reflexivity. Qed.

Lemma turn_call_query {T} pc tx ctrl t q (k : _ -> TxProg T) w1 :
  transactions w1 !! tx = Some t -> aborted t = false ->
  turn env pc tx ctrl RunFn (mkRun w1 (CallQuery q k) Unsettled) =
    match audit_throws env (trace w1) q with
    | Some thrown =>
        mkRun (emit (EvAudit (format q)) w1)
              (k (Throw (Thrown ByObserver thrown))) Unsettled
    | None =>
        mkRun (emit (EvQuery (connection t) q) (emit (EvAudit (format q)) w1))
              (k (match driver_query env (trace w1 ++ [EvAudit (format q)])
                          (connection t) q
                  with
                  | inr rs => Normal rs
                  | inl msg => Throw (Thrown ByDriver msg)
                  end))
              Unsettled
    end.
Proof.
  intros Ht Hflag. unfold turn. cbn [run_result run_fn run_world fn_step].
  rewrite (Transaction_query_run tx t q w1 Ht Hflag).
  by destruct (audit_throws env (trace w1) q).
Qed.

(** A function that has rejected: the next turn settles [tx], and the
    turns after that change nothing. *)
Lemma run_turns_rejected {T} pc tx ctrl n e (w1 : World) :
  let st := run_turns env pc tx ctrl (replicate (S n) RunFn)
                      (mkRun w1 (@Reject T e) Unsettled) in
  run_result st = Rejected e /\
  trace (run_world st) =
    trace w1 ++ [EvQuery (pool_conn pc) ROLLBACK; EvRelease pc].
Proof.
  cbn zeta. change (replicate (S n) RunFn) with (RunFn :: replicate n RunFn).
  rewrite run_turns_cons.
  assert (turn env pc tx ctrl RunFn (mkRun w1 (@Reject T e) Unsettled)
          = tx_resume env pc (Throw e) (Reject e) w1) as -> by done.
  rewrite tx_resume_throw.
  induction n as [|n IH]; [split; [done|flatten_world]|].
  change (replicate (S n) RunFn) with (RunFn :: replicate n RunFn).
  rewrite run_turns_cons. by rewrite turn_fn_settled.
Qed.

Lemma run_fn_queries pc tx ctrl qs acc w1 :
  transactions w1 !! tx
  = Some {| connection := pool_conn pc; aborted := false |} ->
  let st := run_turns env pc tx ctrl (replicate (S (length qs)) RunFn)
                      (mkRun w1 (fn_queries qs acc) Unsettled) in
  let '(answers, tr) :=
    queries_in_order env (pool_conn pc) qs (trace w1) acc in
  match answers with
  | Normal results =>
      match driver_query env tr (pool_conn pc) COMMIT with
      | inr _ =>
          run_result st = Fulfilled results /\
          trace (run_world st) =
            tr ++ [EvQuery (pool_conn pc) COMMIT; EvRelease pc]
      | inl msg =>
          run_result st = Rejected (Thrown ByDriver msg) /\
          trace (run_world st) =
            tr ++ [EvQuery (pool_conn pc) COMMIT;
                   EvQuery (pool_conn pc) ROLLBACK; EvRelease pc]
      end
  | Throw e =>
      run_result st = Rejected e /\
      trace (run_world st) =
        tr ++ [EvQuery (pool_conn pc) ROLLBACK; EvRelease pc]
  end.
Proof.
  revert acc w1.
  induction qs as [|q rest IH]; intros acc w1 Htx.
  - simpl. unfold turn. simpl. rewrite tx_resume_normal.
    destruct (driver_query _ _ _ _); (split; [done|flatten_world]).
  - cbn zeta.
    change (replicate (S (length (q :: rest))) RunFn)
      with (RunFn :: replicate (S (length rest)) RunFn).
    rewrite run_turns_cons. cbn [fn_queries queries_in_order].
    rewrite (turn_call_query pc tx ctrl _ q _ w1 Htx eq_refl).
    cbn [connection].
    destruct (audit_throws env (trace w1) q) as [thrown|].
    { apply (run_turns_rejected pc tx ctrl (length rest)
               (Thrown ByObserver thrown) (emit (EvAudit (format q)) w1)). }
    assert (trace (emit (EvQuery (pool_conn pc) q)
                     (emit (EvAudit (format q)) w1))
            = trace w1 ++ [EvAudit (format q); EvQuery (pool_conn pc) q])
      as Htr by flatten_world.
    destruct (driver_query env (trace w1 ++ [EvAudit (format q)])
                (pool_conn pc) q) as [msg|rs].
    { rewrite <- Htr.
      apply (run_turns_rejected pc tx ctrl (length rest)
               (Thrown ByDriver msg)
               (emit (EvQuery (pool_conn pc) q)
                  (emit (EvAudit (format q)) w1))). }
    rewrite <- Htr.
    apply (IH (acc ++ [rs])
              (emit (EvQuery (pool_conn pc) q)
                 (emit (EvAudit (format q)) w1)) Htx).
Qed.

Lemma queries_in_order_normal c qs tr acc results tr1 :
  queries_in_order env c qs tr acc = (Normal results, tr1) ->
  tr1 = tr ++ flat_map (fun q => [EvAudit (format q); EvQuery c q]) qs /\
  exists answers, results = acc ++ answers /\ length answers = length qs.
Proof.
  revert tr acc. induction qs as [|q rest IH]; intros tr acc; simpl.
  - intros [= <- <-]. rewrite app_nil_r. split; [done|].
    exists []. by rewrite app_nil_r.
  - destruct (audit_throws env tr q); [done|].
    destruct (driver_query env _ c q) as [msg|rs]; [done|].
    intros H. destruct (IH _ _ H) as (-> & answers & -> & Hlen).
    split; [by rewrite <- (assoc_L (++))|].
    exists (rs :: answers). split; [by rewrite <- (assoc_L (++))|].
    simpl. by rewrite Hlen.
Qed.

(** X8.  The function of the test "transaction", with any queries, on any
    driver and observer, once [BEGIN] was accepted: [tx] does what sending
    the queries one after the other does.  When every query is accepted,
    the driver saw [BEGIN], then each query after its audit, in order and
    on the leased connection, then [COMMIT], and [tx] fulfils with one
    answer for each query, in their order (or rejects with the driver's
    failure of [COMMIT], after a [ROLLBACK]); then the lease is released.
    At the first query that the observer or the driver refuses, no later
    query is audited or sent: [tx] sends [ROLLBACK], releases the lease
    and rejects with that failure. *)
Theorem tx_runs_queries_in_order qs w pc rs :
  pool_getConnection env (trace w) = Granted pc ->
  driver_query env (trace w ++ [EvAcquire pc]) (pool_conn pc) BEGIN = inr rs ->
  let c := pool_conn pc in
  let r := Database_tx env (fn_queries qs [])
                       (replicate (S (length qs)) RunFn) w in
  let '(answers, tr) :=
    queries_in_order env c qs (trace w ++ [EvAcquire pc; EvQuery c BEGIN]) []
  in
  match answers with
  | Normal results =>
      length results = length qs /\
      tr = trace w ++ [EvAcquire pc; EvQuery c BEGIN]
             ++ flat_map (fun q => [EvAudit (format q); EvQuery c q]) qs /\
      match driver_query env tr c COMMIT with
      | inr _ =>
          run_result r = Fulfilled results /\
          trace (run_world r) = tr ++ [EvQuery c COMMIT; EvRelease pc]
      | inl msg =>
          run_result r = Rejected (Thrown ByDriver msg) /\
          trace (run_world r) =
            tr ++ [EvQuery c COMMIT; EvQuery c ROLLBACK; EvRelease pc]
      end
  | Throw e =>
      run_result r = Rejected e /\
      trace (run_world r) = tr ++ [EvQuery c ROLLBACK; EvRelease pc]
  end.
Proof.
  intros Hpool Hbegin c r. unfold r.
  rewrite (Database_tx_granted _ _ w pc Hpool), Hbegin.
  pose proof (run_fn_queries pc (length (transactions w))
                (length (controllers w)) qs []
                (world_at_await pc w)
                (world_at_await_transaction pc w)) as H.
  cbn zeta in H. cbn [world_at_await trace] in H. fold c in H.
  destruct (queries_in_order env c qs _ []) as [[results|e] tr] eqn:Hq;
    [|exact H].
  destruct (queries_in_order_normal _ _ _ _ _ _ Hq)
    as (Htr & answers & -> & Hlen).
  split; [done|]. split; [by rewrite Htr, <- (assoc_L (++))|]. exact H.
Qed.

(** *** A refused lease *)


(** *** What queries and streams leave alone *)

Lemma pull_streams p s w : streams (snd (pull env p s w)) = streams w.
Proof.
  destruct p, s as [[pc|msg|] q0|q0 queued|pc cur| |]; simpl; try done;
    unfold pool_loop; destruct (rows _); try done;
    by destruct (failure _).
Qed.

Lemma consume_streams script s w :
  streams (snd (consume env script s w)) = streams w.
Proof.
  revert s w. induction script as [|p script IH]; intros s w; [done|].
  simpl. pose proof (pull_streams p s w) as Hp.
  destruct (pull env p s w) as [[r s1] w1]. simpl in Hp. by rewrite IH.
Qed.

Lemma answer_queued_streams queued s w :
  streams (snd (answer_queued env queued s w)) = streams w.
Proof.
  revert s w. induction queued as [|p queued IH]; intros s w; [done|].
  simpl. pose proof (pull_streams p s w) as Hp.
  destruct (pull env p s w) as [[r s1] w1]. simpl in Hp.
  specialize (IH s1 w1).
  destruct (answer_queued env queued s1 w1) as [[rs s2] w2]. simpl in *.
  congruence.
Qed.

Lemma lease_settles_streams a s w :
  streams (snd (lease_settles env a s w)) = streams w.
Proof.
  unfold lease_settles.
  destruct a as [pc|msg|]; [| |done];
    (destruct s as [[pc0|msg0|] q|q queued|pc0 cur| |]; try done).
  - pose proof (pull_streams Next (SuspendedStart (Granted pc) q)
                  (emit (EvAcquire pc) w)) as Hn. cbn [pull] in Hn.
    destruct (queryStream_next env _ _) as [[r s1] w1].
    pose proof (answer_queued_streams queued s1 w1) as Hq.
    destruct (answer_queued env queued s1 w1) as [[rs s2] w2].
    simpl in *. congruence.
  - cbn [queryStream_next].
    pose proof (answer_queued_streams queued Completed w) as Hq.
    by destruct (answer_queued env queued Completed w) as [[rs s2] w2].
Qed.

Lemma observe_same evs s w :
  same_objects w (snd (observe env evs s w)) /\
  streams (snd (observe env evs s w)) = streams w.
Proof.
  revert s w. induction evs as [|ev evs IH]; intros s w.
  { split; [apply same_objects_refl|done]. }
  simpl.
  assert (same_objects w (snd (happen env ev s w)) /\
          streams (snd (happen env ev s w)) = streams w) as [Hs Hst].
  { destruct ev as [p|a]; simpl.
    - pose proof (pull_same p s w). pose proof (pull_streams p s w).
      by destruct (pull env p s w) as [[r s1] w1].
    - pose proof (lease_settles_same a s w).
      pose proof (lease_settles_streams a s w).
      by destruct (lease_settles env a s w) as [[rs s1] w1]. }
  destruct (happen env ev s w) as [s1 w1]. simpl in *.
  destruct (IH s1 w1) as [IHs IHst]. split; [|congruence].
  by eapply same_objects_trans.
Qed.

(** X10.  A one-shot query, and a pool-level stream whatever its consumer
    calls on it and whenever the pool settles its lease, write nothing but
    the trace: every abort controller, the controller of every connection,
    every transaction object and every transaction-scoped generator is as
    it was. *)
Theorem queries_touch_no_transaction q w script evs :
  let w1 := snd (Database_query env q w) in
  let w2 := match Database_queryStream env q w with
            | (Normal s, w0) => snd (consume env script s w0)
            | (Throw _, w0) => w0
            end in
  let w3 := match Database_queryStream env q w with
            | (Normal s, w0) => snd (observe env evs s w0)
            | (Throw _, w0) => w0
            end in
  (same_objects w w1 /\ streams w1 = streams w) /\
  (same_objects w w2 /\ streams w2 = streams w) /\
  (same_objects w w3 /\ streams w3 = streams w).
Proof.
  assert (streams (snd (Database_queryStream env q w)) = streams w) as Hst.
  { rewrite Database_queryStream_run.
    destruct (audit_throws env (trace w) q); [done|].
    by destruct (pool_getConnection env _). }
  pose proof (Database_queryStream_same q w) as H.
  split; [split|split; split].
  - apply Database_query_same.
  - unfold Database_query, getConnection.
    destruct (pool_getConnection env (trace w)) as [pc|msg|]; try done.
    unfold try_finally, bind, onQuery, release, ret.
    destruct (audit_throws env _ q); [done|].
    rewrite connection_query_run. by destruct (driver_query _ _ _ _).
  - destruct (Database_queryStream env q w) as [[s|e] w0]; [|done].
    eapply same_objects_trans; [exact H|apply consume_same].
  - destruct (Database_queryStream env q w) as [[s|e] w0]; [|done].
    simpl in *. by rewrite consume_streams.
  - destruct (Database_queryStream env q w) as [[s|e] w0]; [|done].
    eapply same_objects_trans; [exact H|apply observe_same].
  - destruct (Database_queryStream env q w) as [[s|e] w0]; [|done].
    simpl in *. by rewrite (proj2 (observe_same evs s w0)).
Qed.

(** *** One controller for each connection *)

Lemma controllers_wf_transfer w w1 :
  controller_of w1 = controller_of w ->
  length (controllers w1) = length (controllers w) ->
  controllers_wf w -> controllers_wf w1.
Proof. intros E1 E2 [H1 H2]. split; rewrite E1, ?E2; done. Qed.

Lemma controllers_wf_same w w1 :
  same_objects w w1 -> controllers_wf w -> controllers_wf w1.
Proof.
  intros (E1 & E2 & _). apply controllers_wf_transfer; [done|by rewrite E1].
Qed.

Lemma onReleaseTimeout_controllers c w :
  controller_of (snd (onReleaseTimeout c w)) = controller_of w /\
  length (controllers (snd (onReleaseTimeout c w))) = length (controllers w).
Proof.
  unfold onReleaseTimeout, controller_abort. simpl.
  destruct (controller_of w !! c) as [k|]; [|done].
  destruct (controllers w !! k) as [[]|]; try done.
  simpl. by rewrite length_insert.
Qed.

Lemma tx_resume_controllers {T} pc (raced : Completion T) p w :
  controller_of (run_world (tx_resume env pc raced p w)) = controller_of w /\
  controllers (run_world (tx_resume env pc raced p w)) = controllers w.
Proof.
  destruct raced as [v|e].
  - rewrite tx_resume_normal. by destruct (driver_query _ _ _ _).
  - by rewrite tx_resume_throw.
Qed.

Lemma turn_controllers {T} pc tx ctrl t (st : TxRun T) :
  controller_of (run_world (turn env pc tx ctrl t st))
  = controller_of (run_world st) /\
  length (controllers (run_world (turn env pc tx ctrl t st)))
  = length (controllers (run_world st)).
Proof.
  unfold turn.
  pose proof (fn_step_same tx (run_fn st) (run_world st)) as (Hf1 & Hf2 & _).
  pose proof (onReleaseTimeout_controllers (pool_conn pc) (run_world st))
    as [Hh1 Hh2].
  assert (forall r : Settlement T,
             let st1 := let '(p1, w1) := fn_step env tx (run_fn st) (run_world st)
                        in mkRun w1 p1 r in
             controller_of (run_world st1) = controller_of (run_world st) /\
             length (controllers (run_world st1))
             = length (controllers (run_world st))) as Hcall.
  { intros r. destruct (fn_step env tx (run_fn st) (run_world st)).
    simpl in *. by rewrite Hf1, Hf2. }
  destruct (run_result st), t; try done; try apply Hcall.
  - destruct (run_fn st) eqn:Hp; try apply Hcall;
      destruct (tx_resume_controllers pc (Normal v) (Resolve v) (run_world st))
        || destruct (tx_resume_controllers pc (@Throw T e) (Reject e)
                       (run_world st));
      by split; congruence.
  - destruct (onReleaseTimeout (pool_conn pc) (run_world st)) as [u w1].
    simpl in Hh1, Hh2.
    destruct (signal_aborted w1 ctrl); [|done].
    destruct (tx_resume_controllers pc (@Throw T (TransactionAborted InRace))
                (run_fn st) w1) as [-> ->]. done.
Qed.

Lemma run_turns_controllers {T} pc tx ctrl sched (st : TxRun T) :
  controller_of (run_world (run_turns env pc tx ctrl sched st))
  = controller_of (run_world st) /\
  length (controllers (run_world (run_turns env pc tx ctrl sched st)))
  = length (controllers (run_world st)).
Proof.
  revert st. induction sched as [|t sched IH]; intros st; [done|].
  simpl. destruct (IH (turn env pc tx ctrl t st)) as [-> ->].
  apply turn_controllers.
Qed.

Lemma world_at_await_wf pc w :
  controllers_wf w -> controllers_wf (world_at_await pc w).
Proof.
  intros [Hbound Hinj]. split; simpl.
  - intros c k. rewrite length_app. simpl.
    destruct (decide (pool_conn pc = c)) as [<-|Hne].
    + rewrite lookup_insert_eq. intros [= <-]. lia.
    + rewrite lookup_insert_ne by done. intros Hk%Hbound. lia.
  - intros c1 c2 k.
    destruct (decide (pool_conn pc = c1)) as [<-|Hne1];
      destruct (decide (pool_conn pc = c2)) as [<-|Hne2]; try done.
    + rewrite lookup_insert_eq, lookup_insert_ne by done.
      intros [= <-] Hk%Hbound. lia.
    + rewrite lookup_insert_eq, lookup_insert_ne by done.
      intros Hk%Hbound [= <-]. lia.
    + rewrite !lookup_insert_ne by done. apply Hinj.
Qed.

Lemma Database_tx_wf {T} (fn : TxProg T) sched w :
  controllers_wf w -> controllers_wf (run_world (Database_tx env fn sched w)).
Proof.
  intros Hw.
  destruct (pool_getConnection env (trace w)) as [pc|msg|] eqn:Hpool.
  - rewrite (Database_tx_granted fn sched w pc Hpool).
    destruct (driver_query _ _ _ _); [done|].
    destruct (run_turns_controllers pc (length (transactions w))
                (length (controllers w)) sched
                (mkRun (world_at_await pc w) fn Unsettled)) as [E1 E2].
    eapply controllers_wf_transfer; [exact E1|exact E2|].
    by apply world_at_await_wf.
  - unfold Database_tx, getConnection. by rewrite Hpool.
  - unfold Database_tx, getConnection. by rewrite Hpool.
Qed.

Lemma exec_wf w op : controllers_wf w -> controllers_wf (exec env w op).
Proof.
  intros Hw.
  destruct op as [q|q script|p s|a s|T fn sched|T pc tx ctrl p r t|c|c];
    try (eapply controllers_wf_same; [apply OpQueryStream_same|done]);
    cbn [exec].
  - eapply controllers_wf_same; [apply Database_query_same|done].
  - eapply controllers_wf_same; [apply pull_same|done].
  - eapply controllers_wf_same; [apply lease_settles_same|done].
  - by apply Database_tx_wf.
  - destruct (turn_controllers pc tx ctrl t (mkRun w p r)) as [E1 E2].
    by eapply controllers_wf_transfer.
  - destruct (onReleaseTimeout_controllers c w) as [E1 E2].
    by eapply controllers_wf_transfer.
  - by eapply controllers_wf_same; [apply same_objects_emit|].
Qed.

Lemma history_wf ops : controllers_wf (history env ops).
Proof.
  unfold history.
  assert (controllers_wf initial_world) as Hinit.
  { split; simpl; intros *; by rewrite lookup_empty. }
  revert Hinit. generalize initial_world.
  induction ops as [|op ops IH]; intros w Hw; [done|].
  simpl. apply IH. by apply exec_wf.
Qed.

(** X9.  After any calls on the layer, the release timeout of one
    connection leaves the transactions on the other connections in
    flight: a transaction whose controller is attached to its connection
    and has not fired keeps both, because [tx] gives every transaction a
    controller of its own and the hook only reaches the controller of the
    connection it is called with. *)
Theorem release_timeout_spares_other_leases ops pc ctrl c' :
  let w := history env ops in
  lease_armed pc ctrl w ->
  c' <> pool_conn pc ->
  let w1 := snd (onReleaseTimeout c' w) in
  lease_armed pc ctrl w1 /\ signal_aborted w1 ctrl = false /\
  trace w1 = trace w
               ++ (match controller_of w !! c' with
                   | Some k => if signal_aborted w k then [] else [EvAbort k]
                   | None => []
                   end)
               ++ [EvDispose c'].
Proof.
  intros w [Hc Hs] Hne w1.
  destruct (history_wf ops) as [Hbound Hinj]. fold w in Hbound, Hinj.
  unfold w1, onReleaseTimeout, controller_abort, signal_aborted. simpl.
  destruct (controller_of w !! c') as [k|] eqn:Hk.
  - assert (k <> ctrl) as Hkc.
    { intros ->. apply Hne. by apply (Hinj c' (pool_conn pc) ctrl). }
    pose proof (Hbound c' k Hk) as Hlt.
    destruct (controllers w !! k) as [[]|] eqn:Hsig.
    + simpl. unfold lease_armed. simpl. by rewrite Hs.
    + simpl. unfold lease_armed. simpl.
      rewrite list_lookup_insert_ne by done. rewrite Hs.
      by rewrite <- (assoc_L (++)).
    + apply lookup_ge_None in Hsig. lia.
  - simpl. unfold lease_armed. simpl. by rewrite Hs.
Qed.

(** *** A lease that the pool settles later *)

Lemma consume_app script1 script2 s w :
  consume env (script1 ++ script2) s w =
    let '(s1, w1) := consume env script1 s w in consume env script2 s1 w1.
Proof.
  revert s w. induction script1 as [|p script1 IH]; intros s w; [done|].
  simpl. destruct (pull env p s w) as [[r s1] w1]. apply IH.
Qed.

Lemma consume_awaiting q queued calls w :
  consume env calls (AwaitingLease q queued) w
  = (AwaitingLease q (queued ++ calls), w).
Proof.
  revert queued. induction calls as [|p calls IH]; intros queued.
  { by rewrite app_nil_r. }
  destruct p; simpl; rewrite IH; by rewrite <- (assoc_L (++)).
Qed.

Lemma consume_after_completed script s w :
  is_completed s = true -> consume env script s w = (s, w).
Proof.
  intros Hs. induction script as [|p script IH]; [done|].
  destruct s; try done; destruct p; simpl; exact IH.
Qed.

(** The queued calls are answered as the same calls made in turn are. *)
Lemma answer_queued_consume queued s w :
  let '(answers, s1, w1) := answer_queued env queued s w in
  length answers = length queued /\ (s1, w1) = consume env queued s w.
Proof.
  revert s w. induction queued as [|p queued IH]; intros s w; [done|].
  simpl. destruct (pull env p s w) as [[r s1] w1].
  specialize (IH s1 w1).
  destruct (answer_queued env queued s1 w1) as [[rs s2] w2].
  destruct IH as [Hlen Heq]. split; [by rewrite <- Hlen|done].
Qed.

Lemma consume_granted_releases_once pc q script w :
  let '(s2, w2) :=
    consume env (Next :: script) (SuspendedStart (Granted pc) q) w in
  count (is_release_of pc) (trace w2) =
    count (is_release_of pc) (trace w) + (if is_completed s2 then 1 else 0).
Proof.
  cbn [consume pull queryStream_next connection_queryStream].
  set (w0 := emit (EvQueryStream (pool_conn pc) q) w).
  assert (count (is_release_of pc) (trace w0)
          = count (is_release_of pc) (trace w)) as Hbase.
  { unfold w0. rewrite trace_emit, count_app. unfold count. simpl. lia. }
  rewrite <- Hbase.
  apply (consume_in_try pc (driver_queryStream env (trace w) (pool_conn pc) q)
           (Next :: script) w0).
Qed.

(** X12.  A stream made while the pool keeps its request waiting: the
    first [next()] stays pending, the calls made after it queue behind it,
    and nothing is sent to the driver.  When the pool grants the lease,
    the pending calls are answered, one answer each, and from then on the
    stream is where the same calls would have brought a stream whose lease
    was granted at the start: its query was dispatched once, and the lease
    is released exactly once, when the stream completes. *)
Theorem pending_lease_granted_later q calls script pc w :
  let '(s0, w0) := consume env (Next :: calls) (SuspendedStart Waiting q) w in
  let '(answers, s1, w1) := lease_settles env (Granted pc) s0 w0 in
  let '(s2, w2) := consume env script s1 w1 in
  (s0 = AwaitingLease q calls /\ w0 = w) /\
  length answers = S (length calls) /\
  (s2, w2) = consume env (Next :: calls ++ script)
                     (SuspendedStart (Granted pc) q) (emit (EvAcquire pc) w) /\
  dispatched (trace w2) = dispatched (trace w) ++ [q] /\
  count (is_release_of pc) (trace w2) =
    count (is_release_of pc) (trace w) + (if is_completed s2 then 1 else 0).
Proof.
  change (consume env (Next :: calls) (SuspendedStart Waiting q) w)
    with (consume env calls (AwaitingLease q []) w).
  rewrite consume_awaiting. cbn [app lease_settles consume pull].
  pose proof (first_next_dispatch pc q (emit (EvAcquire pc) w)) as Hfirst.
  pose proof (consume_granted_releases_once pc q (calls ++ script)
                (emit (EvAcquire pc) w)) as Hcount.
  cbn [consume pull] in Hcount.
  destruct (queryStream_next env (SuspendedStart (Granted pc) q)
              (emit (EvAcquire pc) w)) as [[r sa] wa].
  destruct Hfirst as (Hnone & _ & Hd).
  pose proof (answer_queued_consume calls sa wa) as Hq.
  destruct (answer_queued env calls sa wa) as [[rs sb] wb].
  destruct Hq as [Hlen Hq].
  rewrite consume_app, <- Hq in Hcount |- *.
  pose proof (consume_dispatch calls sa wa) as Hd1.
  rewrite <- Hq in Hd1.
  pose proof (consume_dispatch script sb wb) as Hd2.
  destruct (consume env script sb wb) as [s2 w2].
  split; [done|]. split; [by rewrite <- Hlen|]. split; [done|].
  split; [|revert Hcount; rewrite trace_emit, count_app; unfold count;
           simpl; rewrite Nat.add_0_r; done].
  pose proof (dispatch_step_trans _ _ _ _ _ _ Hd1 Hd2) as [_ Hd12].
  rewrite trace_emit, dispatched_app in Hd. simpl in Hd.
  rewrite app_nil_r in Hd.
  destruct Hd12 as [[Hsame _]|(q' & Hq' & _)]; [|congruence].
  by rewrite Hsame, Hd.
Qed.

(** X13.  A stream closed by [return()] while the pool keeps its request
    waiting: the call answers at once and the stream is completed, but
    nothing tells the pool.  When the pool grants the lease later, the
    lease is taken and no call on the stream ever releases it or sends
    the query; when the pool refuses, nothing awaits the refusal, which
    is an unhandled rejection. *)
Theorem closed_while_lease_pending q a script w :
  let '(r, s0, w0) := queryStream_return (SuspendedStart Waiting q) w in
  let '(answers, s1, w1) := lease_settles env a s0 w0 in
  let '(s2, w2) := consume env script s1 w1 in
  r = Finished /\ w0 = w /\ answers = [] /\ is_completed s2 = true /\
  trace w2 = trace w ++ match a with
                        | Granted pc => [EvAcquire pc]
                        | Refused msg =>
                            [EvUnhandledRejection (Thrown ByPool msg)]
                        | Waiting => []
                        end.
Proof.
  cbn [queryStream_return].
  destruct a as [pc|msg|]; cbn [lease_settles];
    rewrite consume_after_completed by done;
    repeat (split; [done|]); by rewrite ?app_nil_r.
Qed.

End Proofs.

(** * The theorems on sample inputs *)

(** C1 at the test "never releasing": the release timeout fires while the
    function is pending.  The hook aborts the controller and disposes the
    connection, and [tx] rejects through the race; the transaction object
    still has [aborted = false], so the query the function makes
    afterwards passes the guard and is sent to the disposed connection. *)
Theorem release_timeout_leaves_aborted_false :
  let r := Database_tx sample_env late_fn [ReleaseTimeout; RunFn]
                       initial_world in
  run_result r = Rejected (TransactionAborted InRace) /\
  transactions (run_world r) = [{| connection := 0; aborted := false |}] /\
  controllers (run_world r) = [true] /\
  trace (run_world r) =
    [EvAcquire lease0; EvQuery 0 BEGIN;
     EvAbort 0; EvDispose 0; EvQuery 0 ROLLBACK; EvRelease lease0;
     EvAudit (format select1); EvQuery 0 select1].
Proof. vm_compute. by repeat split. Qed.

(** C2, counterexample: a transaction whose function makes no call sends
    [BEGIN] and [COMMIT], or [BEGIN] and [ROLLBACK], to the driver, and the
    audit hook has not run. *)
Lemma tx_control_statements_not_audited :
  let committed :=
    trace (run_world (Database_tx sample_env (Resolve 7%Z) [RunFn]
                                  initial_world)) in
  let rolled_back :=
    trace (run_world (Database_tx sample_env (@Reject Z boom) [RunFn]
                                  initial_world)) in
  dispatched committed = [BEGIN; COMMIT] /\ audited committed = [] /\
  dispatched rolled_back = [BEGIN; ROLLBACK] /\ audited rolled_back = [].
Proof. vm_compute. by repeat split. Qed.

(** C2 (amended) on a one-shot query and on a query of a transaction in
    flight. *)
Lemma audit_runs_once_per_call_witness :
  trace (snd (Database_query sample_env select1 initial_world)) =
    [EvAcquire lease0; EvAudit (format select1); EvQuery 0 select1;
     EvRelease lease0] /\
  trace (snd (Transaction_query sample_env 0 select1
                (world_at_await lease0 initial_world))) =
    [EvAcquire lease0; EvQuery 0 BEGIN;
     EvAudit (format select1); EvQuery 0 select1].
Proof.
  destruct (audit_runs_once_per_call sample_env) as (H1 & _ & H3 & _).
  split.
  - exact (H1 select1 initial_world).
  - exact (H3 0 {| connection := 0; aborted := false |} select1
              (world_at_await lease0 initial_world) eq_refl eq_refl).
Defined.


(** C4 on a driver that refuses [ROLLBACK]: the failure that reaches the
    caller is the first one. *)
Lemma tx_failure_rolls_back_witness :
  driver_query failing_commit_env [] 0 ROLLBACK = inl "SQLITE_BUSY" /\
  run_result (Database_tx failing_commit_env (@Reject Z boom) ([] ++ [RunFn])
                          initial_world) = Rejected boom /\
  run_result (Database_tx failing_commit_env (@Forever Z)
                          ([] ++ [ReleaseTimeout]) initial_world)
  = Rejected (TransactionAborted InRace) /\
  run_result (Database_tx failing_commit_env (Resolve 7%Z) ([] ++ [RunFn])
                          initial_world)
  = Rejected (Thrown ByDriver "SQLITE_BUSY") /\
  run_result (Database_tx sample_env (Resolve 7%Z) [] disposed_world)
  = Rejected (Thrown ByDriver "connection closed").
Proof.
  split; [reflexivity|]. split; [|split; [|split]].
  - destruct (tx_failure_rolls_back failing_commit_env (@Reject Z boom) []
                initial_world lease0 eq_refl) as (_ & H & _).
    exact (proj1 (H boom eq_refl eq_refl)).
  - destruct (tx_failure_rolls_back failing_commit_env (@Forever Z) []
                initial_world lease0 eq_refl) as (_ & _ & H & _).
    exact (proj1 (H eq_refl)).
  - destruct (tx_failure_rolls_back failing_commit_env (Resolve 7%Z) []
                initial_world lease0 eq_refl) as (_ & _ & _ & H).
    exact (proj1 (H 7%Z "SQLITE_BUSY" eq_refl eq_refl eq_refl)).
  - destruct (tx_failure_rolls_back sample_env (Resolve 7%Z) []
                disposed_world lease0 eq_refl) as (H & _).
    exact (proj1 (H "connection closed" eq_refl)).
Defined.

(** C5 on the function that resolves after the timeout. *)
Lemma tx_abort_wins_race_witness :
  run_result (Database_tx sample_env late_fn
                          ([] ++ ReleaseTimeout :: [RunFn]) initial_world)
  = Rejected (TransactionAborted InRace) /\
  Database_tx sample_env late_fn
              ([] ++ (ReleaseTimeout :: [RunFn]) ++ [RunFn]) initial_world
  = Database_tx sample_env late_fn
                ([] ++ ReleaseTimeout :: [RunFn]) initial_world.
Proof.
  destruct (tx_abort_wins_race sample_env late_fn [] [RunFn] initial_world
              lease0 eq_refl eq_refl) as (H1 & _ & _ & H4).
  split; [exact H1|]. apply H4. exact I.
Defined.

(** C6 at a stream that its consumer closes before asking for a row: the
    lease was taken when [queryStream] was called; [return] completes the
    generator without entering its [try] block, and no later call
    releases the lease. *)
Theorem queryStream_closed_before_first_row_keeps_lease :
  match Database_queryStream sample_env select1 initial_world with
  | (Normal s, w) =>
      let '(r, s1, w1) := queryStream_return s w in
      let '(s2, w2) := consume sample_env [Next; Return] s1 w1 in
      s = SuspendedStart (Granted lease0) select1 /\
      r = Finished /\ s1 = Completed /\ s2 = Completed /\
      trace w2 = [EvAudit (format select1); EvAcquire lease0] /\
      count (is_release_of lease0) (trace w2) = 0
  | (Throw _, _) => False
  end.
Proof. vm_compute. by repeat split. Qed.

(** C7, counterexample: the function returns 7 and nothing aborts, the
    driver refuses [COMMIT], and [tx] rejects. *)
Lemma tx_commit_refused_rejects :
  let r := Database_tx failing_commit_env (Resolve 7%Z) [RunFn]
                       initial_world in
  run_fn r = Resolve 7%Z /\
  run_result r = Rejected (Thrown ByDriver "SQLITE_BUSY") /\
  trace (run_world r) =
    [EvAcquire lease0; EvQuery 0 BEGIN; EvQuery 0 COMMIT;
     EvQuery 0 ROLLBACK; EvRelease lease0].
Proof. vm_compute. by repeat split. Qed.

(** C7 (amended) on a function that returns 7 at once. *)
Lemma tx_commits_then_returns_witness :
  let after := Database_tx sample_env (Resolve 7%Z) ([] ++ [RunFn])
                           initial_world in
  run_result after = Fulfilled 7%Z /\
  trace (run_world after) =
    [EvAcquire lease0; EvQuery 0 BEGIN; EvQuery 0 COMMIT; EvRelease lease0].
Proof.
  exact (tx_commits_then_returns sample_env (Resolve 7%Z) [] initial_world
           lease0 7%Z eq_refl eq_refl eq_refl).
Defined.

(** C8, counterexample: with an observer that throws, [query] audits,
    sends nothing to the driver, releases the lease, and rejects with
    what the observer threw, which is neither the rows nor a failure of
    the driver. *)
Lemma query_with_throwing_observer_is_not_dispatched :
  let '(r, w) := Database_query throwing_observer_env select1 initial_world in
  r = Rejected (Thrown ByObserver "observer failed") /\
  trace w = [EvAcquire lease0; EvAudit (format select1); EvRelease lease0] /\
  dispatched (trace w) = [].
Proof. vm_compute. by repeat split. Qed.

(** C8 (amended) on the query of the tests, [SELECT 1 + ? as foo]. *)
Lemma query_acquire_audit_dispatch_release_witness :
  Database_query sample_env select1 initial_world =
    (Fulfilled [row42],
     mkWorld [EvAcquire lease0; EvAudit (format select1);
              EvQuery 0 select1; EvRelease lease0] [] ∅ [] []).
Proof.
  exact (query_acquire_audit_dispatch_release sample_env select1
           initial_world).
Defined.

(** C9 in the middle of the rows, the flag set and a row left. *)
Lemma transactional_stream_checks_flag_witness :
  transactional_next sample_env one_row_left aborted_world
  = (Raised (TransactionAborted InStreamGuard), TxCompleted, aborted_world).
Proof.
  pose proof (transactional_stream_checks_flag sample_env one_row_left 0
                aborted_transaction aborted_world eq_refl eq_refl) as H.
  destruct (transactional_next sample_env one_row_left aborted_world)
    as [[r s1] w1] eqn:E.
  destruct H as (_ & (-> & -> & _) & _).
  vm_compute in E. by injection E as <-.
Defined.

(** C10 after a transaction that timed out, a timeout of the idle
    connection and a query. *)
Lemma aborted_flag_is_never_set_witness :
  Forall (fun t => aborted t = false)
         (transactions (history sample_env sample_ops)) /\
  clean (fst (Transaction_query sample_env 0 select1
                (history sample_env sample_ops))) /\
  InRace = InRace.
Proof.
  destruct (aborted_flag_is_never_set sample_env sample_ops)
    as (H1 & H2 & _).
  destruct (aborted_flag_is_never_set sample_env [OpQuery select1])
    as (_ & _ & _ & H4).
  split; [exact H1|]. split; [exact (H2 0 select1)|].
  exact (H4 Z Forever [ReleaseTimeout] InRace I eq_refl).
Defined.


(** X1 on a consumer that takes one row and closes the stream. *)
Lemma queryStream_releases_once_when_started_witness :
  match Database_queryStream sample_env select1 initial_world with
  | (Normal s, w1) =>
      let '(s2, w2) := consume sample_env (Next :: [Return]) s w1 in
      count (is_release_of lease0) (trace w2) =
        count (is_release_of lease0) (trace initial_world)
        + (if is_completed s2 then 1 else 0)
  | (Throw _, _) => False
  end.
Proof.
  exact (queryStream_releases_once_when_started sample_env select1
           initial_world lease0 [Return] eq_refl).
Defined.

(** X2 on a driver whose stream fails after its first row. *)
Lemma for_await_yields_all_rows_witness :
  match Database_queryStream failing_stream_env select1 initial_world with
  | (Normal s, w1) =>
      for_await failing_stream_env 5 s w1 [] =
        (Some ([row42], Raised (Thrown ByDriver "SQLITE_ERROR")), Completed,
         mkWorld [EvAudit (format select1); EvAcquire lease0;
                  EvQueryStream 0 select1; EvRelease lease0] [] ∅ [] [])
  | (Throw _, _) => False
  end.
Proof.
  apply (for_await_yields_all_rows failing_stream_env select1 initial_world
           lease0 5 eq_refl).
  simpl. lia.
Defined.

(** X3 on a loop that breaks at its first row, the driver having two. *)
Lemma for_await_break_releases_witness :
  match Database_queryStream sample_env select1 initial_world with
  | (Normal s, w1) =>
      for_await_break sample_env 0 s w1 [] =
        ([row42], Finished, Completed,
         mkWorld [EvAudit (format select1); EvAcquire lease0;
                  EvQueryStream 0 select1; EvRelease lease0] [] ∅ [] [])
  | (Throw _, _) => False
  end.
Proof.
  exact (for_await_break_releases sample_env select1 initial_world lease0 0
           eq_refl).
Defined.

(** X4 in a transaction that has just begun. *)
Lemma tx_for_await_yields_all_rows_witness :
  tx_for_await sample_env 3 (TxSuspendedStart 0 select1)
               (world_at_await lease0 initial_world) [] =
    (Some ([row42; row3], Finished), TxCompleted,
     emit (EvQueryStream 0 select1) (world_at_await lease0 initial_world)).
Proof.
  apply (tx_for_await_yields_all_rows sample_env 0
           {| connection := 0; aborted := false |} select1
           (world_at_await lease0 initial_world) 3 eq_refl eq_refl).
  simpl. lia.
Defined.

(** X5 on a transaction that commits. *)
Lemma tx_releases_lease_once_witness :
  count (is_release_of lease0)
        (trace (run_world (Database_tx sample_env (Resolve 7%Z) [RunFn]
                                       initial_world))) = 1.
Proof.
  exact (tx_releases_lease_once sample_env (Resolve 7%Z) [RunFn]
           initial_world lease0 eq_refl).
Defined.

(** X6 on the transaction that times out and whose function queries
    afterwards. *)
Lemma tx_trace_shape_witness :
  exists calls evs later,
    trace (run_world (Database_tx sample_env late_fn [ReleaseTimeout; RunFn]
                                  initial_world)) =
      [EvAcquire lease0; EvQuery 0 BEGIN] ++ calls ++ evs ++ later /\
    fn_calls 0 calls /\ fn_calls 0 later /\
    settling_events lease0 0 (@Rejected Z (TransactionAborted InRace)) evs /\
    (@Rejected Z (TransactionAborted InRace) = Unsettled -> later = []).
Proof.
  exact (tx_trace_shape sample_env late_fn [ReleaseTimeout; RunFn]
           initial_world lease0 [row42] eq_refl eq_refl).
Defined.


(** X8 on the two queries of the test "transaction", and with an
    observer that throws at the second of them. *)
Lemma tx_runs_queries_in_order_witness :
  let r := Database_tx fresh_connections_env (fn_queries [select1; select2] [])
                       [RunFn; RunFn; RunFn] initial_world in
  let r2 := Database_tx second_audit_throws_env
                        (fn_queries [select1; select2] [])
                        [RunFn; RunFn; RunFn] initial_world in
  (run_result r = Fulfilled [[row42]; [row42]] /\
   trace (run_world r) =
     [EvAcquire lease0; EvQuery 0 BEGIN;
      EvAudit (format select1); EvQuery 0 select1;
      EvAudit (format select2); EvQuery 0 select2;
      EvQuery 0 COMMIT; EvRelease lease0]) /\
  (run_result r2 = Rejected (Thrown ByObserver "observer failed") /\
   trace (run_world r2) =
     [EvAcquire lease0; EvQuery 0 BEGIN;
      EvAudit (format select1); EvQuery 0 select1;
      EvAudit (format select2);
      EvQuery 0 ROLLBACK; EvRelease lease0]).
Proof.
  split.
  - exact (proj2 (proj2 (tx_runs_queries_in_order fresh_connections_env
                           [select1; select2] initial_world lease0 [row42]
                           eq_refl eq_refl))).
  - exact (tx_runs_queries_in_order second_audit_throws_env
             [select1; select2] initial_world lease0 [row42]
             eq_refl eq_refl).
Defined.

(** X9 on two transactions in flight: the timeout of connection 1 leaves
    the transaction on connection 0 armed. *)
Lemma release_timeout_spares_other_leases_witness :
  lease_armed lease0 0
    (snd (onReleaseTimeout 1 (history fresh_connections_env two_transactions))).
Proof.
  refine (proj1 (release_timeout_spares_other_leases fresh_connections_env
                   two_transactions lease0 0 1 (conj eq_refl eq_refl) _)).
  simpl. lia.
Defined.

(** X11 on the function that queries after the timeout. *)
Lemma settled_tx_still_queries_witness :
  trace (run_world (Database_tx sample_env late_fn ([ReleaseTimeout] ++ [RunFn])
                                initial_world)) =
    [EvAcquire lease0; EvQuery 0 BEGIN;
     EvAbort 0; EvDispose 0; EvQuery 0 ROLLBACK; EvRelease lease0;
     EvAudit (format select1); EvQuery 0 select1].
Proof.
  exact (proj1 (settled_tx_still_queries sample_env late_fn [ReleaseTimeout]
                  initial_world lease0 [row42] select1
                  (fun _ => Resolve 7%Z)
                  eq_refl eq_refl eq_refl eq_refl)).
Defined.
